(** * Tic-Tac-Toe (react_frontend/src/App.js): game engine and win detector

    A shallow embedding of the game logic of [App.js]: the win detector
    ([calculateWinner], [boardWinnerSquares]), the event handlers of the
    [App] component ([startGame], [restartGame], [handleSquareClick],
    [makeAIMove], [handleBoardUpdate]) and the effect that schedules the
    computer's move.

    The component's seven [useState] variables form one record; every
    handler is a function from the state of the render it was created in
    to the state after its batched updates.  Rendering and styling are
    not modelled. *)

From Stdlib Require Import List String Ascii Bool Arith Lia ZArith QArith Qround
  Qpower Lqa.
Import ListNotations.
Local Open Scope nat_scope.
Local Open Scope string_scope.
Local Open Scope list_scope.

(* ================================================================== *)
(** ** Values held by the board *)
(* ================================================================== *)

(** [PLAYER_X = "X"], [PLAYER_O = "O"]. *)
Inductive player : Type := PLAYER_X | PLAYER_O.

(** What a read [squares[i]] can produce: [null] (an empty cell),
    [undefined] (a read past the end of the array, or a slot skipped by a
    write past the end) or one of the two player strings.  A slot that a
    write past the end leaves out is read back as [undefined] by indexing
    and by the spread [[...board]], and [every], [map] and [filter] treat
    it as they treat [undefined] in this program, so one constructor
    stands for both. *)
Inductive cell : Type :=
| Null
| Undefined
| Mark (p : player).

Definition player_eqb (p q : player) : bool :=
  match p, q with
  | PLAYER_X, PLAYER_X | PLAYER_O, PLAYER_O => true
  | _, _ => false
  end.

(** Strict equality [===] on cell values. *)
Definition cell_eqb (c d : cell) : bool :=
  match c, d with
  | Null, Null | Undefined, Undefined => true
  | Mark p, Mark q => player_eqb p q
  | _, _ => false
  end.

(** JavaScript truthiness: [null] and [undefined] are falsy, the
    non-empty strings ["X"] and ["O"] are truthy. *)
Definition truthy (c : cell) : bool :=
  match c with
  | Mark _ => true
  | _ => false
  end.

(** [cell !== null]. *)
Definition not_null (c : cell) : bool :=
  match c with
  | Null => false
  | _ => true
  end.

(** The string a player symbol is. *)
Definition player_string (p : player) : string :=
  match p with
  | PLAYER_X => "X"
  | PLAYER_O => "O"
  end.

(* ================================================================== *)
(** ** Arrays *)
(* ================================================================== *)

Definition squares : Type := list cell.

(** [squares[i]]: [undefined] past the end. *)
Definition js_get (sq : squares) (i : nat) : cell := nth i sq Undefined.

(** [arr[i] = v] on a copy: replaces in range; past the end the array
    grows to length [i + 1] and the slots in between read [undefined]. *)
Fixpoint js_set (sq : squares) (i : nat) (v : cell) : squares :=
  match i, sq with
  | 0, [] => [v]
  | 0, _ :: rest => v :: rest
  | S j, [] => Undefined :: js_set [] j v
  | S j, c :: rest => c :: js_set rest j v
  end.

(** [Array(9).fill(null)]. *)
Definition getInitialBoard : squares := repeat Null 9.

(* ================================================================== *)
(** ** Win detector *)
(* ================================================================== *)

(** The constant [lines] of [calculateWinner] and [boardWinnerSquares]
    (the two functions carry the same literal). *)
Definition lines : list (list nat) :=
  [ [0; 1; 2];
    [3; 4; 5];
    [6; 7; 8];
    [0; 3; 6];
    [1; 4; 7];
    [2; 5; 8];
    [0; 4; 8];
    [2; 4; 6] ].

(** The test of the loop body:
    [squares[a] && squares[a] === squares[b] && squares[a] === squares[c]]. *)
Definition line_test (sq : squares) (a b c : nat) : bool :=
  truthy (js_get sq a)
  && cell_eqb (js_get sq a) (js_get sq b)
  && cell_eqb (js_get sq a) (js_get sq c).

(** [for (let line of lines) { const [a, b, c] = line; if (...) return squares[a]; }
    return null;]  A line with fewer than three entries would bind
    [undefined] and fail the test. *)
Fixpoint calculateWinner_loop (ls : list (list nat)) (sq : squares) : cell :=
  match ls with
  | [] => Null
  | line :: rest =>
      match line with
      | a :: b :: c :: _ =>
          if line_test sq a b c then js_get sq a
          else calculateWinner_loop rest sq
      | _ => calculateWinner_loop rest sq
      end
  end.

Definition calculateWinner (sq : squares) : cell :=
  calculateWinner_loop lines sq.

(** Same loop, [return line;] in the body and [return [];] after it. *)
Fixpoint boardWinnerSquares_loop (ls : list (list nat)) (sq : squares) : list nat :=
  match ls with
  | [] => []
  | line :: rest =>
      match line with
      | a :: b :: c :: _ =>
          if line_test sq a b c then line
          else boardWinnerSquares_loop rest sq
      | _ => boardWinnerSquares_loop rest sq
      end
  end.

Definition boardWinnerSquares (sq : squares) : list nat :=
  boardWinnerSquares_loop lines sq.

(* ================================================================== *)
(** ** Component state *)
(* ================================================================== *)

(** [MODES]. The mode variable holds whatever string [startGame] is
    given, so it is a string here too. *)
Module MODES.
Definition TWO_PLAYER : string := "TWO_PLAYER".
Definition SINGLE_PLAYER : string := "SINGLE_PLAYER".
End MODES.

(** The score object [{ X: 0, O: 0, Draw: 0 }]; counters are natural
    numbers. *)
Module Score.
Record t : Type := mk { X : nat; O : nat; Draw : nat }.
End Score.

(** [{...prev, [winner]: prev[winner] + 1}] for [winner] one of the two
    player strings. *)
Definition score_win (winner : player) (prev : Score.t) : Score.t :=
  match winner with
  | PLAYER_X => Score.mk (Score.X prev + 1) (Score.O prev) (Score.Draw prev)
  | PLAYER_O => Score.mk (Score.X prev) (Score.O prev + 1) (Score.Draw prev)
  end.

(** [{...prev, Draw: prev.Draw + 1}]. *)
Definition score_draw (prev : Score.t) : Score.t :=
  Score.mk (Score.X prev) (Score.O prev) (Score.Draw prev + 1).

(** The [useState] variables of [App]. *)
Record state : Type := mkState {
  mode : string;
  board : squares;
  xIsNext : bool;
  status : string;
  gameStarted : bool;
  gameOver : bool;
  score : Score.t
}.

(** The values passed to [useState] on the first render. *)
Definition initialState : state :=
  {| mode := MODES.TWO_PLAYER;
     board := getInitialBoard;
     xIsNext := true;
     status := "Choose a mode & start the game.";
     gameStarted := false;
     gameOver := false;
     score := Score.mk 0 0 0 |}.

(** The state setters.  Within one handler each variable is set at most
    once and [setScore] takes an updater function, so the batch of a
    handler is these record updates applied in program order. *)
Definition setMode (v : string) (s : state) : state :=
  mkState v (board s) (xIsNext s) (status s) (gameStarted s) (gameOver s) (score s).
Definition setBoard (v : squares) (s : state) : state :=
  mkState (mode s) v (xIsNext s) (status s) (gameStarted s) (gameOver s) (score s).
Definition setXIsNext (v : bool) (s : state) : state :=
  mkState (mode s) (board s) v (status s) (gameStarted s) (gameOver s) (score s).
Definition setStatus (v : string) (s : state) : state :=
  mkState (mode s) (board s) (xIsNext s) v (gameStarted s) (gameOver s) (score s).
Definition setGameStarted (v : bool) (s : state) : state :=
  mkState (mode s) (board s) (xIsNext s) (status s) v (gameOver s) (score s).
Definition setGameOver (v : bool) (s : state) : state :=
  mkState (mode s) (board s) (xIsNext s) (status s) (gameStarted s) v (score s).
Definition setScore (f : Score.t -> Score.t) (s : state) : state :=
  mkState (mode s) (board s) (xIsNext s) (status s) (gameStarted s) (gameOver s)
          (f (score s)).

(* ================================================================== *)
(** ** Handlers *)
(* ================================================================== *)

(** In every handler [s] is the state of the render whose closure the
    handler reads ([mode], [board], [xIsNext], ...); the result is the
    state after the handler's updates. *)

Definition startGame (selectedMode : string) (s : state) : state :=
  let s := setMode selectedMode s in
  let s := setBoard getInitialBoard s in
  let s := setGameStarted true s in
  let s := setXIsNext true s in
  let s := setGameOver false s in
  setStatus ("Your move: X" ++
             (if String.eqb selectedMode MODES.SINGLE_PLAYER
              then " (You)" else EmptyString)) s.

Definition restartGame (s : state) : state :=
  let p := setBoard getInitialBoard s in
  let p := setGameOver false p in
  let p := setXIsNext true p in
  setStatus ("Game reset. " ++
             (if String.eqb (mode s) MODES.SINGLE_PLAYER
              then "Your move: X (You)" else "X's turn")) p.

(** The status line of a win. *)
Definition win_status (m : string) (winner : player) : string :=
  if String.eqb m MODES.SINGLE_PLAYER then
    match winner with
    | PLAYER_X => "You win! 🎉"
    | PLAYER_O => "Computer wins! 😞"
    end
  else "Player " ++ player_string winner ++ " wins! 🎉".

(** The status line of a game that goes on. *)
Definition continue_status (m : string) (xTurnNext : bool) : string :=
  if String.eqb m MODES.SINGLE_PLAYER then
    (if xTurnNext then "Your move: X (You)" else "Computer is thinking...")
  else (if xTurnNext then "X" else "O") ++ "'s turn".

(** [handleBoardUpdate(newBoard, xTurnNext)]: [s] is the closure's state
    (only [mode] is read), [pending] the state with the updates the
    caller has already queued. *)
Definition handleBoardUpdate (s : state) (newBoard : squares) (xTurnNext : bool)
    (pending : state) : state :=
  match calculateWinner newBoard with
  | Mark winner =>
      let p := setStatus (win_status (mode s) winner) pending in
      let p := setGameOver true p in
      setScore (score_win winner) p
  | _ =>
      if forallb not_null newBoard then
        let p := setStatus "It's a draw!" pending in
        let p := setGameOver true p in
        setScore score_draw p
      else
        let p := setStatus (continue_status (mode s) xTurnNext) pending in
        setXIsNext xTurnNext p
  end.

Definition handleSquareClick (idx : nat) (s : state) : state :=
  if negb (gameStarted s) || truthy (js_get (board s) idx) || gameOver s then s
  else if String.eqb (mode s) MODES.SINGLE_PLAYER && negb (xIsNext s) then s
  else
    let newBoard :=
      js_set (board s) idx (Mark (if xIsNext s then PLAYER_X else PLAYER_O)) in
    handleBoardUpdate s newBoard (negb (xIsNext s)) (setBoard newBoard s).

(** [arr.map((val, idx) => ...)], the index starting at [i]. *)
Fixpoint map_index {A B : Type} (f : A -> nat -> B) (l : list A) (i : nat) : list B :=
  match l with
  | [] => []
  | x :: rest => f x i :: map_index f rest (S i)
  end.

(** [.filter((v) => v !== null)] on an array of indices and [null]s. *)
Fixpoint filter_not_null (l : list (option nat)) : list nat :=
  match l with
  | [] => []
  | Some i :: rest => i :: filter_not_null rest
  | None :: rest => filter_not_null rest
  end.

(** [available] of [makeAIMove]: the indices of the [null] cells. *)
Definition available (b : squares) : list nat :=
  filter_not_null
    (map_index (fun val idx => if cell_eqb val Null then Some idx else None) b 0).

(** Numbers are IEEE 754 doubles.  The three definitions below give the
    double nearest to a rational: [binade q] is the [e] with
    [2^e <= q < 2^(e+1)] for a positive [q]; doubles carry 53 significant
    bits, and below [2^-1022] the spacing stays that of the smallest
    normal binade. *)
Definition pow2 (e : Z) : Q := (2 ^ e)%Q.

Definition binade (q : Q) : Z :=
  let e := (Z.log2 (Qnum q) - Z.log2 (Z.pos (Qden q)))%Z in
  if Qle_bool (pow2 e) q then e else (e - 1)%Z.

(** Exponent of the spacing of the doubles around a positive [q]. *)
Definition ulp_exp (q : Q) : Z := (Z.max (binade q) (-1022) - 52)%Z.

(** The integer nearest to [m], the even one of two that are equally
    near. *)
Definition round_half_even (m : Q) : Z :=
  let f := Qfloor m in
  match (m - inject_Z f ?= 1 # 2)%Q with
  | Lt => f
  | Gt => (f + 1)%Z
  | Eq => if Z.even f then f else (f + 1)%Z
  end.

(** A positive [q] brought onto the grid of the doubles around it, the
    multiple chosen by [r]. *)
Definition double_mag (r : Q -> Z) (q : Q) : Q :=
  (inject_Z (r (q * pow2 (- ulp_exp q))) * pow2 (ulp_exp q))%Q.

Definition to_double (r : Q -> Z) (q : Q) : Q :=
  match Qnum q with
  | Z0 => 0%Q
  | Zpos _ => double_mag r q
  | Zneg _ => (- double_mag r (- q))%Q
  end.

(** The value of [Math.random()], a double.  The parameter [rnd] of the
    model is that value; a rational that is not a double stands for the
    double next to it toward zero, so that the model is defined for
    every rational.  On a double this is the identity. *)
Definition js_random (rnd : Q) : Q := to_double Qfloor rnd.

(** [x * y] on Numbers: the exact product rounded to the nearest double,
    ties to the even significand.  Products beyond the largest double
    do not occur here (one factor is below 1, the other the length of
    an array, which is below 2^32 and so an exact double). *)
Definition js_mul (x y : Q) : Q := to_double round_half_even (x * y)%Q.

(** [available[Math.floor(Math.random() * available.length)]], [rnd]
    the value of [Math.random()]; [None] is [undefined], the result of
    an index outside the array. *)
Definition pick_move (rnd : Q) (avail : list nat) : option nat :=
  let k :=
    Qfloor (js_mul (js_random rnd) (inject_Z (Z.of_nat (List.length avail)))) in
  if (k <? 0)%Z then None else nth_error avail (Z.to_nat k).

(** [makeAIMove()], with the value [Math.random()] returns as a
    parameter.  Were [move] [undefined], the assignment would not touch
    any element of the copy. *)
Definition makeAIMove (rnd : Q) (s : state) : state :=
  let avail := available (board s) in
  if Nat.eqb (List.length avail) 0 then s
  else
    let newBoard :=
      match pick_move rnd avail with
      | Some move => js_set (board s) move (Mark PLAYER_O)
      | None => board s
      end in
    handleBoardUpdate s newBoard true (setBoard newBoard s).

(** The condition under which the effect arms the move timer. *)
Definition ai_scheduled (s : state) : bool :=
  String.eqb (mode s) MODES.SINGLE_PLAYER
  && gameStarted s && negb (gameOver s) && negb (xIsNext s).

(** The effect of [App] with its timer firing: the timer exists only if
    the condition held at the render, and the cleanup clears it as soon
    as [board], [xIsNext], [mode], [gameStarted] or [gameOver] changes,
    so when it fires [makeAIMove] runs on the state the condition was
    tested on.  Without a timer nothing happens. *)
Definition moveTimeout (rnd : Q) (s : state) : state :=
  if ai_scheduled s then makeAIMove rnd s else s.

(* ================================================================== *)
(** ** Runs of the component *)
(* ================================================================== *)

(** What can happen to the component: a press of a mode button, of
    Restart, a click on a cell, the move timer firing (with the number
    [Math.random()] then returns). *)
Inductive event : Type :=
| EStart (selectedMode : string)
| ERestart
| EClick (idx : nat)
| ETimer (rnd : Q).

Definition step (s : state) (e : event) : state :=
  match e with
  | EStart m => startGame m s
  | ERestart => restartGame s
  | EClick idx => handleSquareClick idx s
  | ETimer rnd => moveTimeout rnd s
  end.

Definition run (s : state) (es : list event) : state := fold_left step es s.

(** [Math.random()] returns a number in [[0, 1)]. *)
Definition random_range (rnd : Q) : Prop := (0 <= rnd)%Q /\ (rnd < 1)%Q.

Definition event_ok (e : event) : Prop :=
  match e with
  | ETimer rnd => random_range rnd
  | _ => True
  end.

(** The states the component can be in. *)
Inductive reachable : state -> Prop :=
| reachable_init : reachable initialState
| reachable_step : forall s e,
    reachable s -> event_ok e -> reachable (step s e).

(** The game status the state displays: not started, in progress, or
    over with the winner the detector finds on the board (a draw if it
    finds none). *)
Inductive GameStatus : Type :=
| NOT_STARTED
| IN_PROGRESS
| WON (winner : player)
| DRAWN.

Definition gameStatus (s : state) : GameStatus :=
  if negb (gameStarted s) then NOT_STARTED
  else if negb (gameOver s) then IN_PROGRESS
  else match calculateWinner (board s) with
       | Mark w => WON w
       | _ => DRAWN
       end.

(** Number of cells holding the symbol of [p], and of cells holding any
    symbol. *)
Definition count_player (p : player) (sq : squares) : nat :=
  List.length (filter (fun c => cell_eqb c (Mark p)) sq).

Definition placed (sq : squares) : nat := List.length (filter truthy sq).

(* ================================================================== *)
(** ** Predicates used in the statements *)
(* ================================================================== *)

(** A line is won by [p] on [sq]: its three cells hold the symbol of [p]. *)
Definition line_wins (sq : squares) (line : list nat) (p : player) : Prop :=
  match line with
  | a :: b :: c :: _ =>
      js_get sq a = Mark p /\ js_get sq b = Mark p /\ js_get sq c = Mark p
  | _ => False
  end.

(** A click on cell [idx] passes both guards of [handleSquareClick]. *)
Definition click_accepted (idx : nat) (s : state) : Prop :=
  gameStarted s = true /\ gameOver s = false
  /\ truthy (js_get (board s) idx) = false
  /\ (mode s = MODES.SINGLE_PLAYER -> xIsNext s = true).

(** A click on cell [idx] is stopped by one of the guards. *)
Definition click_rejected (idx : nat) (s : state) : Prop :=
  gameStarted s = false \/ gameOver s = true
  \/ truthy (js_get (board s) idx) = true
  \/ (mode s = MODES.SINGLE_PLAYER /\ xIsNext s = false).

(** The symbol whose turn it is. *)
Definition turn (s : state) : player :=
  if xIsNext s then PLAYER_X else PLAYER_O.

(** What a game outcome adds to the score: one point on the counter of
    the outcome, nothing elsewhere; nothing at all while the game is not
    over. *)
Definition score_credit (g : GameStatus) (old new : Score.t) : Prop :=
  match g with
  | WON PLAYER_X =>
      Score.X new = Score.X old + 1 /\ Score.O new = Score.O old
      /\ Score.Draw new = Score.Draw old
  | WON PLAYER_O =>
      Score.X new = Score.X old /\ Score.O new = Score.O old + 1
      /\ Score.Draw new = Score.Draw old
  | DRAWN =>
      Score.X new = Score.X old /\ Score.O new = Score.O old
      /\ Score.Draw new = Score.Draw old + 1
  | _ => new = old
  end.

Definition score_total (sc : Score.t) : nat :=
  Score.X sc + Score.O sc + Score.Draw sc.


(** The two move events. *)
Definition is_move (e : event) : Prop :=
  match e with
  | EClick _ | ETimer _ => True
  | _ => False
  end.

(** Outcome of the resolution step: [s] is the state before the move,
    [nb] the board with the new symbol on it, [s'] the state after.  A
    cell counts as non-empty when it is not [null]. *)
Definition resolution (s : state) (nb : squares) (s' : state) : Prop :=
  board s' = nb /\ mode s' = mode s /\ gameStarted s' = true
  /\ (forall w, calculateWinner nb = Mark w ->
        gameOver s' = true /\ gameStatus s' = WON w
        /\ score_credit (WON w) (score s) (score s')
        /\ xIsNext s' = xIsNext s
        /\ status s' = win_status (mode s) w)
  /\ (calculateWinner nb = Null -> ~ In Null nb ->
        gameOver s' = true /\ gameStatus s' = DRAWN
        /\ score_credit DRAWN (score s) (score s')
        /\ xIsNext s' = xIsNext s
        /\ status s' = "It's a draw!")
  /\ (calculateWinner nb = Null -> In Null nb ->
        gameOver s' = false /\ gameStatus s' = IN_PROGRESS
        /\ score s' = score s
        /\ xIsNext s' = negb (xIsNext s))
  /\ (calculateWinner nb = Null \/ exists w, calculateWinner nb = Mark w).

(** The two symbols alternate, [X] first. *)
Definition balanced (sq : squares) : Prop :=
  count_player PLAYER_O sq <= count_player PLAYER_X sq
  /\ count_player PLAYER_X sq <= count_player PLAYER_O sq + 1.

(** Invariant of the component: while a game goes on, [xIsNext] tells
    which symbol is one behind and the board has an empty cell; a
    finished board is balanced. *)
Definition turn_inv (s : state) : Prop :=
  if gameOver s then balanced (board s)
  else count_player PLAYER_X (board s) =
       count_player PLAYER_O (board s) + (if xIsNext s then 0 else 1)
       /\ forallb not_null (board s) = false.

(** A two-player game in which [X] takes the top row: the first four
    moves, and the whole game. *)
Definition top_row_opening : list event :=
  [EStart MODES.TWO_PLAYER; EClick 0; EClick 3; EClick 1; EClick 4].

Definition top_row_game : list event := top_row_opening ++ [EClick 2].

(** A single-player game the computer wins on the middle row: it is
    over with ["O"] having moved last. *)
Definition computer_wins_game : list event :=
  [EStart MODES.SINGLE_PLAYER;
   EClick 0; ETimer (1 # 4); EClick 1; ETimer (1 # 4);
   EClick 8; ETimer (1 # 4)].

(** A single-player game after the human's first move. *)
Definition single_player_opening : list event :=
  [EStart MODES.SINGLE_PLAYER; EClick 0].

(* ================================================================== *)
(** ** What the component renders *)
(* ================================================================== *)

(** [COLORS]. *)
Module COLORS.
Definition primary : string := "#1976D2".
Definition secondary : string := "#C2185B".
Definition accent : string := "#FFEB3B".
End COLORS.

(** [boardWinnerSquares(board).includes(idx) && gameOver], the test
    [renderBoard] makes twice for each cell. *)
Definition highlighted (idx : nat) (s : state) : bool :=
  existsb (Nat.eqb idx) (boardWinnerSquares (board s)) && gameOver s.

(** The attributes of a cell button that depend on the state: its
    content, the colour of the symbol ([None] for [undefined]), the
    background, the shadow and the [disabled] flag. *)
Record square_button : Type := mkSquare {
  sq_val : cell;
  sq_color : option string;
  sq_background : string;
  sq_boxShadow : string;
  sq_disabled : bool
}.

(** The body of the [board.map] of [renderBoard]. *)
Definition render_square (s : state) (val : cell) (idx : nat) : square_button :=
  {| sq_val := val;
     sq_color :=
       if cell_eqb val (Mark PLAYER_X) then Some COLORS.primary
       else if cell_eqb val (Mark PLAYER_O) then Some COLORS.secondary
       else None;
     sq_background := if highlighted idx s then COLORS.accent else "#fff";
     sq_boxShadow :=
       if highlighted idx s then "0 0 12px 0 " ++ COLORS.accent else "none";
     sq_disabled := truthy val || negb (gameStarted s) || gameOver s |}.

(** [renderBoard()]: one button per cell of [board], in order. *)
Definition renderBoard (s : state) : list square_button :=
  map_index (render_square s) (board s) 0.

(** The [disabled] flags of the three buttons of [renderControls]. *)
Record controls : Type := mkControls {
  single_disabled : bool;
  two_disabled : bool;
  restart_disabled : bool
}.

Definition renderControls (s : state) : controls :=
  {| single_disabled := gameStarted s && String.eqb (mode s) MODES.SINGLE_PLAYER;
     two_disabled := gameStarted s && String.eqb (mode s) MODES.TWO_PLAYER;
     restart_disabled := negb (gameStarted s) |}.

(** The events the rendered page can produce: the two mode buttons pass
    the two modes, the cell buttons pass the indices of the nine cells,
    and [Math.random()] is in its range. *)
Definition ui_event (e : event) : Prop :=
  match e with
  | EStart m => m = MODES.TWO_PLAYER \/ m = MODES.SINGLE_PLAYER
  | ERestart => True
  | EClick idx => idx < 9
  | ETimer rnd => random_range rnd
  end.

(** What holds of a state because of how games end: a game that goes on
    has no winner and an empty cell; a finished game was started and its
    status line names the outcome found on the board; when [O] is to
    move in a game that goes on, the status line says so. *)
Definition outcome_inv (s : state) : Prop :=
  (gameOver s = false ->
     calculateWinner (board s) = Null /\ In Null (board s))
  /\ (gameOver s = true ->
        gameStarted s = true
        /\ ((exists w, calculateWinner (board s) = Mark w
                       /\ status s = win_status (mode s) w)
            \/ (calculateWinner (board s) = Null /\ ~ In Null (board s)
                /\ status s = "It's a draw!")))
  /\ (xIsNext s = false ->
        gameStarted s = true
        /\ (gameOver s = false -> status s = continue_status (mode s) false)).

(** The board with the two symbols exchanged. *)
Definition swap_player (p : player) : player :=
  match p with
  | PLAYER_X => PLAYER_O
  | PLAYER_O => PLAYER_X
  end.

Definition swap_cell (c : cell) : cell :=
  match c with
  | Mark p => Mark (swap_player p)
  | _ => c
  end.

(* ================================================================== *)
(** ** The embedding on concrete runs *)
(* ================================================================== *)

(** The top-row game ends with [X] the winner on line [[0, 1, 2]] and
    the score [X: 1, O: 0, Draw: 0]. *)
Example top_row_game_result :
  gameStatus (run initialState top_row_game) = WON PLAYER_X
  /\ boardWinnerSquares (board (run initialState top_row_game)) = [0; 1; 2]
  /\ status (run initialState top_row_game) = "Player X wins! 🎉"
  /\ score (run initialState top_row_game) = Score.mk 1 0 0.
Proof. repeat split; reflexivity. Qed.

(** A two-player game that fills the board without a line is a draw. *)
Example full_board_draw :
  gameStatus
    (run initialState
       [EStart MODES.TWO_PLAYER; EClick 0; EClick 1; EClick 2; EClick 4;
        EClick 3; EClick 5; EClick 7; EClick 6; EClick 8]) = DRAWN
  /\ score
       (run initialState
          [EStart MODES.TWO_PLAYER; EClick 0; EClick 1; EClick 2; EClick 4;
           EClick 3; EClick 5; EClick 7; EClick 6; EClick 8]) = Score.mk 0 0 1.
Proof. split; reflexivity. Qed.

(** In single-player mode a click while the computer is to move is
    ignored, and the timer then writes ["O"] into one of the eight empty
    cells: with [Math.random()] returning 1/2, the fifth of them. *)
Example single_player_reply :
  handleSquareClick 1 (run initialState single_player_opening)
  = run initialState single_player_opening
  /\ board (moveTimeout (1 # 2) (run initialState single_player_opening))
     = [Mark PLAYER_X; Null; Null; Null; Null; Mark PLAYER_O; Null; Null; Null].
Proof. split; reflexivity. Qed.

(** The product is rounded as a double before the floor is taken:
    [6004799503160661 / 2^53] times 6 is [4 - 2^-52], halfway between
    two doubles, and rounds to 4. *)
Example pick_move_rounds_product :
  pick_move (6004799503160661 # 9007199254740992) [10; 11; 12; 13; 14; 15]
  = Some 14.
Proof. vm_compute. reflexivity. Qed.

(** A write past the end of the array leaves [undefined] slots. *)
Example js_set_past_end :
  js_set [Null; Null] 4 (Mark PLAYER_X)
  = [Null; Null; Undefined; Undefined; Mark PLAYER_X].
Proof. reflexivity. Qed.

(* ================================================================== *)
(** ** Properties of the win detector *)
(* ================================================================== *)

Lemma player_eqb_eq (p q : player) : player_eqb p q = true <-> p = q.
Proof. destruct p, q; simpl; split; congruence. Qed.

Lemma cell_eqb_eq (c d : cell) : cell_eqb c d = true <-> c = d.
Proof.
  destruct c as [| |p], d as [| |q]; simpl; split; try congruence.
  - intros H. apply player_eqb_eq in H. now subst.
  - intros H. injection H as ->. now apply player_eqb_eq.
Qed.

Lemma cell_eqb_refl (c : cell) : cell_eqb c c = true.
Proof. now apply cell_eqb_eq. Qed.

Lemma truthy_Mark (c : cell) : truthy c = true <-> exists p, c = Mark p.
Proof.
  destruct c; simpl; split; try congruence; eauto.
  all: intros [p Hp]; discriminate.
Qed.

(** The loop test holds exactly when the three cells are non-empty and
    equal. *)
Lemma line_test_true (sq : squares) (a b c : nat) :
  line_test sq a b c = true <->
  exists p, js_get sq a = Mark p /\ js_get sq b = Mark p /\ js_get sq c = Mark p.
Proof.
  unfold line_test. rewrite !andb_true_iff, truthy_Mark, !cell_eqb_eq. split.
  - intros [[[p Hp] Hb] Hc]. exists p. repeat split; congruence.
  - intros (p & Ha & Hb & Hc). repeat split; eauto; congruence.
Qed.

Lemma line_test_false (sq : squares) (a b c : nat) :
  line_test sq a b c = false <->
  forall p, ~ (js_get sq a = Mark p /\ js_get sq b = Mark p /\ js_get sq c = Mark p).
Proof.
  rewrite <- not_true_iff_false, line_test_true. split.
  - intros H p Hp. apply H. now exists p.
  - intros H [p Hp]. now apply (H p).
Qed.

Section Loops.
Variable sq : squares.

(** No line of the list is won: both loops fall through. *)
Lemma loops_none (ls : list (list nat)) :
  (forall l q, In l ls -> ~ line_wins sq l q) ->
  calculateWinner_loop ls sq = Null /\ boardWinnerSquares_loop ls sq = [].
Proof.
  induction ls as [|l ls IH]; intros Hno; simpl; [now split|].
  assert (Hrest : forall l' q, In l' ls -> ~ line_wins sq l' q)
    by (intros l' q Hin; apply Hno; now right).
  destruct l as [|a [|b [|c tl]]]; try (now apply IH).
  destruct (line_test sq a b c) eqn:Ht; [|now apply IH].
  apply line_test_true in Ht. destruct Ht as [p Hp].
  exfalso. apply (Hno (a :: b :: c :: tl) p); [now left|exact Hp].
Qed.

(** The first won line of the list decides both loops. *)
Lemma loops_first (pre post : list (list nat)) (l : list nat) (p : player) :
  (forall l' q, In l' pre -> ~ line_wins sq l' q) ->
  line_wins sq l p ->
  calculateWinner_loop (pre ++ l :: post) sq = Mark p
  /\ boardWinnerSquares_loop (pre ++ l :: post) sq = l.
Proof.
  induction pre as [|l' pre IH]; intros Hno Hl; simpl.
  - destruct l as [|a [|b [|c tl]]]; try contradiction.
    assert (Ht : line_test sq a b c = true)
      by (apply line_test_true; now exists p).
    rewrite Ht. split; [apply Hl|reflexivity].
  - assert (Hrest : forall l0 q, In l0 pre -> ~ line_wins sq l0 q)
      by (intros l0 q Hin; apply Hno; now right).
    destruct l' as [|a [|b [|c tl]]]; try (now apply IH).
    destruct (line_test sq a b c) eqn:Ht; [|now apply IH].
    apply line_test_true in Ht. destruct Ht as [q Hq].
    exfalso. apply (Hno (a :: b :: c :: tl) q); [now left|exact Hq].
Qed.

(** The two loops always stop at the same place. *)
Lemma loops_agree (ls : list (list nat)) :
  (calculateWinner_loop ls sq = Null /\ boardWinnerSquares_loop ls sq = [])
  \/ (exists p, calculateWinner_loop ls sq = Mark p
                /\ In (boardWinnerSquares_loop ls sq) ls
                /\ line_wins sq (boardWinnerSquares_loop ls sq) p).
Proof.
  induction ls as [|l ls IH]; simpl; [now left|].
  assert (Hrest :
    (calculateWinner_loop ls sq = Null /\ boardWinnerSquares_loop ls sq = [])
    \/ (exists p, calculateWinner_loop ls sq = Mark p
                  /\ (l = boardWinnerSquares_loop ls sq
                      \/ In (boardWinnerSquares_loop ls sq) ls)
                  /\ line_wins sq (boardWinnerSquares_loop ls sq) p)).
  { destruct IH as [IH|(p & H1 & H2 & H3)]; [now left|].
    right. exists p. auto. }
  destruct l as [|a [|b [|c tl]]]; try exact Hrest.
  destruct (line_test sq a b c) eqn:Ht; [|exact Hrest].
  apply line_test_true in Ht. destruct Ht as (p & Ha & Hb & Hc).
  right. exists p. simpl. auto.
Qed.
End Loops.

(** Every line of the table is a triple of increasing indices below 9. *)
Lemma lines_shape (l : list nat) :
  In l lines -> exists a b c, l = [a; b; c] /\ a < b /\ b < c /\ c < 9.
Proof.
  unfold lines. simpl. intros H.
  repeat (destruct H as [H|H];
          [subst l; do 3 eexists; split; [reflexivity|lia]|]).
  contradiction.
Qed.

(* ================================================================== *)
(** ** Counting symbols *)
(* ================================================================== *)

Lemma count_player_cons (p : player) (c : cell) (sq : squares) :
  count_player p (c :: sq) =
  (if cell_eqb c (Mark p) then 1 else 0) + count_player p sq.
Proof. unfold count_player. simpl. now destruct (cell_eqb c (Mark p)). Qed.

Lemma placed_cons (c : cell) (sq : squares) :
  placed (c :: sq) = (if truthy c then 1 else 0) + placed sq.
Proof. unfold placed. simpl. now destruct (truthy c). Qed.

Lemma placed_count (sq : squares) :
  placed sq = count_player PLAYER_X sq + count_player PLAYER_O sq.
Proof.
  induction sq as [|c sq IH]; [reflexivity|].
  rewrite placed_cons, !count_player_cons, IH.
  destruct c as [| |[|]]; simpl; lia.
Qed.

Lemma js_get_nil (i : nat) : js_get [] i = Undefined.
Proof. now destruct i. Qed.

(** Writing a symbol into a cell that holds none adds one to the count
    of that symbol and leaves the other count alone; this covers a write
    past the end of the array. *)
Lemma count_player_js_set (p q : player) (sq : squares) (i : nat) :
  truthy (js_get sq i) = false ->
  count_player p (js_set sq i (Mark q)) =
  count_player p sq + (if player_eqb q p then 1 else 0).
Proof.
  revert sq. induction i as [|i IH]; intros [|c sq] Hc.
  - simpl. rewrite count_player_cons. simpl. unfold count_player. simpl. lia.
  - simpl. unfold js_get in Hc. simpl in Hc.
    rewrite !count_player_cons. simpl.
    destruct c; simpl in *; try discriminate; lia.
  - simpl. rewrite count_player_cons. simpl.
    rewrite IH by (now rewrite js_get_nil). reflexivity.
  - simpl. rewrite !count_player_cons.
    rewrite (IH sq Hc). lia.
Qed.

Lemma js_get_js_set_same (sq : squares) (i : nat) (v : cell) :
  js_get (js_set sq i v) i = v.
Proof.
  revert sq. induction i as [|i IH]; intros [|c sq]; simpl; try reflexivity.
  - apply (IH []).
  - apply IH.
Qed.

Lemma count_player_ge1 (p : player) (sq : squares) (a : nat) :
  js_get sq a = Mark p -> 1 <= count_player p sq.
Proof.
  revert sq. induction a as [|a IH]; intros [|x sq] Ha;
    try discriminate; unfold js_get in Ha; simpl in Ha;
    rewrite count_player_cons.
  - subst x. rewrite cell_eqb_refl. lia.
  - specialize (IH sq Ha). lia.
Qed.

Lemma count_player_ge2 (p : player) (sq : squares) (a b : nat) :
  a < b -> js_get sq a = Mark p -> js_get sq b = Mark p ->
  2 <= count_player p sq.
Proof.
  revert sq b. induction a as [|a IH]; intros [|x sq] [|b] Hlt Ha Hb;
    try lia; try discriminate; unfold js_get in Ha, Hb; simpl in Ha, Hb;
    rewrite count_player_cons.
  - subst x. rewrite cell_eqb_refl.
    pose proof (count_player_ge1 p sq b Hb). lia.
  - assert (H : 2 <= count_player p sq) by (apply (IH sq b); [lia|easy|easy]).
    lia.
Qed.

Lemma count_player_ge3 (p : player) (sq : squares) (a b c : nat) :
  a < b -> b < c ->
  js_get sq a = Mark p -> js_get sq b = Mark p -> js_get sq c = Mark p ->
  3 <= count_player p sq.
Proof.
  revert sq b c. induction a as [|a IH]; intros [|x sq] [|b] [|c] Hab Hbc Ha Hb Hc;
    try lia; try discriminate; unfold js_get in Ha, Hb, Hc; simpl in Ha, Hb, Hc;
    rewrite count_player_cons.
  - subst x. rewrite cell_eqb_refl.
    assert (H : 2 <= count_player p sq)
      by (apply (count_player_ge2 p sq b c); [lia|easy|easy]).
    lia.
  - assert (H : 3 <= count_player p sq)
      by (apply (IH sq b c); [lia|lia|easy|easy|easy]).
    lia.
Qed.

(** The detector returns [null] or a player symbol, never [undefined]. *)
Lemma calculateWinner_cases (sq : squares) :
  calculateWinner sq = Null \/ exists p, calculateWinner sq = Mark p.
Proof.
  destruct (loops_agree sq lines) as [[H _]|(p & H & _)]; [now left|].
  right. now exists p.
Qed.

(** A symbol the detector returns occupies a whole line of the table. *)
Lemma calculateWinner_line (sq : squares) (p : player) :
  calculateWinner sq = Mark p ->
  exists a b c, In [a; b; c] lines /\ a < b /\ b < c /\ c < 9
                /\ boardWinnerSquares sq = [a; b; c]
                /\ js_get sq a = Mark p /\ js_get sq b = Mark p
                /\ js_get sq c = Mark p.
Proof.
  intros Hw. unfold calculateWinner, boardWinnerSquares in *.
  destruct (loops_agree sq lines) as [[H _]|(q & H & Hin & Hwin)];
    [congruence|].
  assert (q = p) by congruence. subst q.
  destruct (lines_shape _ Hin) as (a & b & c & Hl & Hab & Hbc & Hc).
  rewrite Hl in Hin, Hwin. simpl in Hwin.
  exists a, b, c. rewrite Hl. tauto.
Qed.

Lemma calculateWinner_count (sq : squares) (p : player) :
  calculateWinner sq = Mark p -> 3 <= count_player p sq.
Proof.
  intros Hw. destruct (calculateWinner_line sq p Hw)
    as (a & b & c & _ & Hab & Hbc & _ & _ & Ha & Hb & Hc).
  now apply (count_player_ge3 p sq a b c).
Qed.

(** With at most two symbols of each player on the board there is no
    winner. *)
Lemma calculateWinner_few (sq : squares) :
  count_player PLAYER_X sq <= 2 -> count_player PLAYER_O sq <= 2 ->
  calculateWinner sq = Null.
Proof.
  intros Hx Ho. destruct (calculateWinner_cases sq) as [H|[p H]]; [exact H|].
  apply calculateWinner_count in H. destruct p; lia.
Qed.

(* ================================================================== *)
(** ** The resolution step and the computer's choice *)
(* ================================================================== *)

Lemma handleBoardUpdate_win (s pending : state) (nb : squares) (x : bool) (w : player) :
  calculateWinner nb = Mark w ->
  handleBoardUpdate s nb x pending =
  setScore (score_win w)
    (setGameOver true (setStatus (win_status (mode s) w) pending)).
Proof. intros H. unfold handleBoardUpdate. now rewrite H. Qed.

Lemma handleBoardUpdate_draw (s pending : state) (nb : squares) (x : bool) :
  calculateWinner nb = Null -> forallb not_null nb = true ->
  handleBoardUpdate s nb x pending =
  setScore score_draw (setGameOver true (setStatus "It's a draw!" pending)).
Proof. intros H F. unfold handleBoardUpdate. now rewrite H, F. Qed.

Lemma handleBoardUpdate_continue (s pending : state) (nb : squares) (x : bool) :
  calculateWinner nb = Null -> forallb not_null nb = false ->
  handleBoardUpdate s nb x pending =
  setXIsNext x (setStatus (continue_status (mode s) x) pending).
Proof. intros H F. unfold handleBoardUpdate. now rewrite H, F. Qed.

Lemma map_index_available (l : squares) (i m : nat) :
  In m (filter_not_null
          (map_index (fun val idx => if cell_eqb val Null then Some idx else None) l i)) ->
  i <= m /\ nth (m - i) l Undefined = Null.
Proof.
  revert i. induction l as [|x l IH]; intros i Hin; simpl in Hin; [contradiction|].
  assert (Hrest : In m (filter_not_null
            (map_index (fun val idx => if cell_eqb val Null then Some idx else None)
               l (S i))) -> i <= m /\ nth (m - i) (x :: l) Undefined = Null).
  { intros H. destruct (IH _ H) as [Hle Hn]. split; [lia|].
    replace (m - i) with (S (m - S i)) by lia. exact Hn. }
  destruct (cell_eqb x Null) eqn:Hx; [|now apply Hrest].
  destruct Hin as [<-|Hin]; [|now apply Hrest].
  apply cell_eqb_eq in Hx. subst x. rewrite Nat.sub_diag. now split.
Qed.

(** Every index [makeAIMove] can choose from is an empty cell. *)
Lemma available_empty (b : squares) (m : nat) :
  In m (available b) -> js_get b m = Null.
Proof.
  intros H. apply map_index_available in H. destruct H as [_ H].
  now rewrite Nat.sub_0_r in H.
Qed.

Lemma map_index_nonempty (l : squares) (i : nat) :
  forallb not_null l = false ->
  filter_not_null
    (map_index (fun val idx => if cell_eqb val Null then Some idx else None) l i) <> [].
Proof.
  revert i. induction l as [|x l IH]; intros i H; simpl in *; [discriminate|].
  destruct x; simpl in *; try discriminate; now apply IH.
Qed.

(** A board that is not full of non-[null] cells offers a move. *)
Lemma available_nonempty (b : squares) :
  forallb not_null b = false -> available b <> [].
Proof. apply map_index_nonempty. Qed.

Section DoubleArithmetic.
Local Open Scope Q_scope.

Lemma pow2_pos (e : Z) : 0 < pow2 e.
Proof. unfold pow2. apply Qpower_0_lt. reflexivity. Qed.

Lemma pow2_add (a b : Z) : pow2 (a + b) == pow2 a * pow2 b.
Proof. unfold pow2. apply Qpower_plus. discriminate. Qed.

Lemma pow2_le (a b : Z) : (a <= b)%Z -> pow2 a <= pow2 b.
Proof. intros H. unfold pow2. apply Qpower_le_compat_l; [exact H|]. discriminate. Qed.

Lemma pow2_lt_inv (a b : Z) : pow2 a < pow2 b -> (a < b)%Z.
Proof.
  intros H. destruct (Z.lt_ge_cases a b) as [Hlt|Hge]; [exact Hlt|].
  apply pow2_le in Hge. exfalso. apply (Qlt_not_le _ _ H Hge).
Qed.

Lemma pow2_opp (e : Z) : pow2 e * pow2 (- e) == 1.
Proof. rewrite <- pow2_add, Z.add_opp_diag_r. reflexivity. Qed.

Lemma pow2_Z (n : Z) : (0 <= n)%Z -> pow2 n == inject_Z (2 ^ n).
Proof. intros H. unfold pow2. now rewrite Zpower_Qpower. Qed.

Lemma binade_spec (q : Q) :
  0 < q -> pow2 (binade q) <= q /\ q < pow2 (binade q + 1).
Proof.
  intros Hq. destruct q as [a b]. 
  assert (Ha : (0 < a)%Z) by (unfold Qlt in Hq; simpl in Hq; lia).
  unfold binade. simpl Qnum. simpl Qden.
  set (la := Z.log2 a). set (lb := Z.log2 (Z.pos b)).
  destruct (Z.log2_spec a Ha) as [Ha1 Ha2]. fold la in Ha1, Ha2.
  destruct (Z.log2_spec (Z.pos b) ltac:(lia)) as [Hb1 Hb2]. fold lb in Hb1, Hb2.
  assert (Hla : (0 <= la)%Z) by apply Z.log2_nonneg.
  assert (Hlb : (0 <= lb)%Z) by apply Z.log2_nonneg.
  assert (Hqb : (a # b) * inject_Z (Z.pos b) == inject_Z a).
  { unfold Qeq, Qmult, inject_Z. simpl. lia. }
  assert (Hbpos : 0 < inject_Z (Z.pos b)) by (unfold Qlt; simpl; lia).
  destruct (Qle_bool (pow2 (la - lb)) (a # b)) eqn:E.
  - apply Qle_bool_iff in E. split; [exact E|].
    (* q < pow2 (la - lb + 1) *)
    apply (Qmult_lt_r _ _ (pow2 lb) (pow2_pos lb)).
    rewrite <- pow2_add. replace (la - lb + 1 + lb)%Z with (la + 1)%Z by lia.
    apply Qle_lt_trans with ((a # b) * inject_Z (Z.pos b)).
    + apply Qmult_le_l; [exact Hq|]. rewrite pow2_Z by exact Hlb.
      rewrite <- Zle_Qle. exact Hb1.
    + rewrite Hqb, pow2_Z by lia. rewrite <- Zlt_Qlt. exact Ha2.
  - assert (Hlt : (a # b) < pow2 (la - lb)).
    { apply Qnot_le_lt. intros H. apply Qle_bool_iff in H. congruence. }
    split; [|now replace (la - lb - 1 + 1)%Z with (la - lb)%Z by lia].
    apply (Qmult_le_r _ _ (pow2 (lb + 1)) (pow2_pos _)).
    rewrite <- pow2_add. replace (la - lb - 1 + (lb + 1))%Z with la by lia.
    apply Qle_trans with ((a # b) * inject_Z (Z.pos b)).
    + rewrite Hqb, pow2_Z by exact Hla. rewrite <- Zle_Qle. exact Ha1.
    + apply Qmult_le_l; [exact Hq|]. rewrite pow2_Z by lia.
      rewrite <- Zle_Qle. lia.
Qed.

Lemma round_half_even_bounds (m : Q) :
  inject_Z (round_half_even m) <= m + (1 # 2)
  /\ m - (1 # 2) <= inject_Z (round_half_even m).
Proof.
  unfold round_half_even.
  pose proof (Qfloor_le m) as Hlo. pose proof (Qlt_floor m) as Hhi.
  assert (Hs : inject_Z (Qfloor m + 1) == inject_Z (Qfloor m) + 1)
    by (rewrite inject_Z_plus; reflexivity).
  rewrite Hs in Hhi.
  destruct (m - inject_Z (Qfloor m) ?= 1 # 2) eqn:E.
  - apply Qeq_alt in E.
    destruct (Z.even (Qfloor m)); rewrite ?Hs; split; lra.
  - apply Qlt_alt in E. split; lra.
  - apply Qgt_alt in E. rewrite Hs. split; lra.
Qed.

Lemma round_half_even_nonneg (m : Q) : 0 <= m -> (0 <= round_half_even m)%Z.
Proof.
  intros H. unfold round_half_even.
  assert (Hf : (0 <= Qfloor m)%Z).
  { rewrite <- (Qfloor_Z 0). now apply Qfloor_resp_le. }
  destruct (m - inject_Z (Qfloor m) ?= 1 # 2);
    try destruct (Z.even (Qfloor m)); lia.
Qed.

Lemma Qnum_pos (q : Q) (p : positive) : Qnum q = Z.pos p -> 0 < q.
Proof. intros H. unfold Qlt. simpl. rewrite H. lia. Qed.

Lemma Qnum_zero (q : Q) : Qnum q = 0%Z -> q == 0.
Proof. intros H. unfold Qeq. simpl. rewrite H. lia. Qed.

Lemma Qnum_neg (q : Q) (p : positive) : Qnum q = Z.neg p -> q < 0.
Proof. intros H. unfold Qlt. simpl. rewrite H. lia. Qed.

Lemma scale_back (q : Q) (u : Z) : q * pow2 (- u) * pow2 u == q.
Proof.
  rewrite <- Qmult_assoc, (Qmult_comm (pow2 (- u))), pow2_opp. apply Qmult_1_r.
Qed.

(** The double below a positive number. *)
Lemma double_mag_floor (q : Q) :
  0 < q -> 0 <= double_mag Qfloor q /\ double_mag Qfloor q <= q.
Proof.
  intros Hq. unfold double_mag. set (u := ulp_exp q).
  pose proof (pow2_pos u) as Hu. pose proof (pow2_pos (- u)) as Hu'.
  pose proof (Qfloor_le (q * pow2 (- u))) as Hf.
  split.
  - apply Qmult_le_0_compat; [|lra].
    change 0 with (inject_Z 0). rewrite <- Zle_Qle.
    rewrite <- (Qfloor_Z 0). apply Qfloor_resp_le.
    apply Qmult_le_0_compat; lra.
  - rewrite <- (scale_back q u) at 2.
    apply Qmult_le_compat_r; [exact Hf|lra].
Qed.

(** The nearest double is at most half a unit in the last place away. *)
Lemma double_mag_round (q : Q) :
  0 < q ->
  0 <= double_mag round_half_even q
  /\ double_mag round_half_even q <= q + (1 # 2) * pow2 (ulp_exp q)
  /\ q - (1 # 2) * pow2 (ulp_exp q) <= double_mag round_half_even q.
Proof.
  intros Hq. unfold double_mag. set (u := ulp_exp q).
  pose proof (pow2_pos u) as Hu. pose proof (pow2_pos (- u)) as Hu'.
  destruct (round_half_even_bounds (q * pow2 (- u))) as [Hhi Hlo].
  split; [|split].
  - apply Qmult_le_0_compat; [|lra].
    change 0 with (inject_Z 0). rewrite <- Zle_Qle.
    apply round_half_even_nonneg. apply Qmult_le_0_compat; lra.
  - apply Qle_trans with ((q * pow2 (- u) + (1 # 2)) * pow2 u).
    + apply Qmult_le_compat_r; [exact Hhi|lra].
    + rewrite Qmult_plus_distr_l, scale_back. lra.
  - apply Qle_trans with ((q * pow2 (- u) - (1 # 2)) * pow2 u).
    + setoid_replace ((q * pow2 (- u) - (1 # 2)) * pow2 u)
        with (q * pow2 (- u) * pow2 u - (1 # 2) * pow2 u) by ring.
      rewrite scale_back. lra.
    + apply Qmult_le_compat_r; [exact Hlo|lra].
Qed.

Lemma pow2_m1 : pow2 (-1) == 1 # 2.
Proof. reflexivity. Qed.

Lemma pow2_0 : pow2 0 == 1.
Proof. reflexivity. Qed.

(** [Math.random()]: the double read off the parameter lies in
    [[0, 1 - 2^-53]]. *)
Lemma js_random_range (rnd : Q) :
  0 <= rnd -> rnd < 1 ->
  0 <= js_random rnd /\ js_random rnd <= 1 - pow2 (-53).
Proof.
  intros H0 H1. unfold js_random, to_double.
  pose proof (pow2_pos (-53)) as Hc.
  assert (Hc' : pow2 (-53) <= 1 # 2)
    by (rewrite <- pow2_m1; apply pow2_le; lia).
  destruct (Qnum rnd) as [|p|p] eqn:E.
  - split; lra.
  - pose proof (Qnum_pos _ _ E) as Hpos.
    destruct (double_mag_floor rnd Hpos) as [Hlo Hhi].
    split; [exact Hlo|].
    destruct (binade_spec rnd Hpos) as [Hb1 Hb2].
    assert (Hneg : (binade rnd < 0)%Z).
    { apply pow2_lt_inv. rewrite pow2_0. lra. }
    destruct (Z.eq_dec (binade rnd) (-1)) as [Em1|Hne].
    + unfold double_mag, ulp_exp. rewrite Em1.
      change (Z.max (-1) (-1022) - 52)%Z with (-53)%Z.
      change (- -53)%Z with 53%Z.
      assert (Hfl : (Qfloor (rnd * pow2 53) <= 2 ^ 53 - 1)%Z).
      { assert (Qfloor (rnd * pow2 53) < 2 ^ 53)%Z; [|lia].
        rewrite Zlt_Qlt. apply Qle_lt_trans with (rnd * pow2 53);
          [apply Qfloor_le|].
        rewrite <- pow2_Z by lia.
        pose proof (pow2_pos 53). 
        setoid_replace (pow2 53) with (1 * pow2 53) at 2 by ring.
        apply Qmult_lt_compat_r; assumption. }
      rewrite Zle_Qle in Hfl.
      apply Qle_trans with (inject_Z (2 ^ 53 - 1) * pow2 (-53)).
      * apply Qmult_le_compat_r; [exact Hfl|lra].
      * assert (Ec : inject_Z (2 ^ 53 - 1) * pow2 (-53) == 1 - pow2 (-53))
          by (vm_compute; reflexivity).
        rewrite Ec. apply Qle_refl.
    + assert (Hle : pow2 (binade rnd + 1) <= pow2 (-1)) by (apply pow2_le; lia).
      rewrite pow2_m1 in Hle. lra.
  - pose proof (Qnum_neg _ _ E). lra.
Qed.

(** [Math.floor(d * n)] for a double [d] of [Math.random()] and an
    array length [n]: an index of the array. *)
Lemma js_index_range (d : Q) (n : Z) :
  0 <= d -> d <= 1 - pow2 (-53) -> (1 <= n)%Z ->
  (0 <= Qfloor (js_mul d (inject_Z n)) < n)%Z.
Proof.
  intros H0 H1 Hn.
  assert (HnQ : 1 <= inject_Z n) by (change 1 with (inject_Z 1); now rewrite <- Zle_Qle).
  pose proof (pow2_pos (-53)) as Hc.
  assert (Hbound : 0 <= js_mul d (inject_Z n) /\ js_mul d (inject_Z n) < inject_Z n).
  { unfold js_mul, to_double.
    destruct (Qnum (d * inject_Z n)) as [|p|p] eqn:E.
    - split; lra.
    - pose proof (Qnum_pos _ _ E) as Hpos.
      destruct (double_mag_round _ Hpos) as (Hlo & Hhi & _).
      split; [exact Hlo|].
      eapply Qle_lt_trans; [exact Hhi|].
      destruct (binade_spec _ Hpos) as [Hb1 Hb2].
      set (q := d * inject_Z n) in *.
      assert (Hq : q <= inject_Z n * (1 - pow2 (-53))).
      { unfold q. rewrite (Qmult_comm d). apply Qmult_le_l; lra. }
      unfold ulp_exp.
      destruct (Z.max_spec (binade q) (-1022)) as [[Hlt ->]|[Hge ->]].
      + (* subnormal *)
        assert (Hq2 : q < pow2 (-2)).
        { eapply Qlt_le_trans; [exact Hb2|]. apply pow2_le. lia. }
        assert (Hu : pow2 (-1022 - 52) <= pow2 (-2)) by (apply pow2_le; lia).
        assert (E2 : pow2 (-2) == 1 # 4) by reflexivity.
        rewrite E2 in *. lra.
      + assert (Hu : pow2 (binade q - 52) == pow2 (binade q) * pow2 (-52))
          by (rewrite <- pow2_add; reflexivity).
        assert (E52 : pow2 (-52) == 2 * pow2 (-53)).
        { change (-52)%Z with (1 + -53)%Z. rewrite pow2_add. reflexivity. }
        rewrite Hu, E52.
        set (c := pow2 (-53)) in *. set (b := pow2 (binade q)) in *.
        assert (Hcb : b * c <= q * c) by (apply Qmult_le_compat_r; lra).
        assert (Hqc : q * c <= inject_Z n * (1 - c) * c)
          by (apply Qmult_le_compat_r; lra).
        assert (Hcc : 0 < inject_Z n * (c * c)).
        { apply Qmult_lt_0_compat; [lra|]. apply Qmult_lt_0_compat; lra. }
        setoid_replace ((1 # 2) * (b * (2 * c))) with (b * c) by ring.
        setoid_replace (inject_Z n * (1 - c) * c)
          with (inject_Z n * c - inject_Z n * (c * c)) in Hqc by ring.
        setoid_replace (inject_Z n * (1 - c))
          with (inject_Z n - inject_Z n * c) in Hq by ring.
        lra.
    - pose proof (Qnum_neg _ _ E) as Hneg.
      assert (0 <= d * inject_Z n) by (apply Qmult_le_0_compat; lra). lra. }
  destruct Hbound as [Hlo Hhi]. split.
  - rewrite <- (Qfloor_Z 0). now apply Qfloor_resp_le.
  - rewrite Zlt_Qlt. eapply Qle_lt_trans; [apply Qfloor_le|exact Hhi].
Qed.

Lemma round_half_even_exact (m : Q) (z : Z) :
  m == inject_Z z -> round_half_even m = z.
Proof.
  intros H. unfold round_half_even.
  assert (Hf : Qfloor m = z) by (rewrite H; apply Qfloor_Z).
  rewrite Hf.
  assert (E : (m - inject_Z z ?= 1 # 2) = Lt).
  { apply Qlt_alt. rewrite H. unfold Qminus. rewrite Qplus_opp_r. reflexivity. }
  now rewrite E.
Qed.

Lemma Qnum_of_zero (q : Q) : q == 0 -> Qnum q = 0%Z.
Proof. unfold Qeq. simpl. lia. Qed.

Lemma Qfloor_exact (m : Q) (z : Z) : m == inject_Z z -> Qfloor m = z.
Proof. intros H. rewrite H. apply Qfloor_Z. Qed.

(** A number with at most 53 significant bits above the smallest
    exponent is a double: both roundings return it. *)
Lemma to_double_exact (r : Q -> Z) (q : Q) (N j : Z) :
  (forall m z, m == inject_Z z -> r m = z) ->
  (0 < N < 2 ^ 53)%Z -> (0 <= j <= 1074)%Z ->
  q == inject_Z N * pow2 (- j) ->
  to_double r q == q.
Proof.
  intros Hr HN Hj Hq.
  pose proof (pow2_pos (- j)) as Hpj.
  assert (HNQ : 0 < inject_Z N) by (change 0 with (inject_Z 0); rewrite <- Zlt_Qlt; lia).
  assert (Hpos : 0 < q) by (rewrite Hq; apply Qmult_lt_0_compat; assumption).
  unfold to_double. destruct (Qnum q) as [|p|p] eqn:E.
  - apply Qnum_zero in E. lra.
  - clear E. destruct (binade_spec q Hpos) as [Hb1 _].
    assert (He : (binade q < 53 - j)%Z).
    { apply pow2_lt_inv. eapply Qle_lt_trans; [exact Hb1|].
      rewrite Hq. replace (53 - j)%Z with (53 + - j)%Z by lia.
      rewrite pow2_add. apply Qmult_lt_compat_r; [exact Hpj|].
      rewrite pow2_Z by lia. rewrite <- Zlt_Qlt. lia. }
    unfold double_mag. set (u := ulp_exp q).
    assert (Hu : (0 <= - u - j)%Z) by (unfold u, ulp_exp; lia).
    assert (Hm : q * pow2 (- u) == inject_Z (N * 2 ^ (- u - j))).
    { rewrite Hq, inject_Z_mult, <- pow2_Z by exact Hu.
      rewrite <- Qmult_assoc, <- pow2_add.
      now replace (- j + - u)%Z with (- u - j)%Z by lia. }
    rewrite (Hr _ _ Hm), <- Hm. apply scale_back.
  - apply Qnum_neg in E. lra.
Qed.

(** Every index below the length is produced by some double of
    [Math.random()], for arrays of at most 2^26 entries. *)
Lemma js_index_reached (k n : Z) :
  (0 <= k < n)%Z -> (n <= 2 ^ 26)%Z ->
  exists rnd, 0 <= rnd /\ rnd < 1
    /\ js_random rnd == rnd
    /\ Qfloor (js_mul (js_random rnd) (inject_Z n)) = k.
Proof.
  intros Hk Hn.
  set (c := ((k * 2 ^ 26 + n - 1) / n)%Z).
  assert (Hc1 : (k * 2 ^ 26 <= c * n)%Z).
  { unfold c. pose proof (Z.mod_pos_bound (k * 2 ^ 26 + n - 1) n ltac:(lia)).
    pose proof (Z.div_mod (k * 2 ^ 26 + n - 1) n ltac:(lia)). nia. }
  assert (Hc2 : (c * n < (k + 1) * 2 ^ 26)%Z).
  { unfold c. pose proof (Z.mod_pos_bound (k * 2 ^ 26 + n - 1) n ltac:(lia)).
    pose proof (Z.div_mod (k * 2 ^ 26 + n - 1) n ltac:(lia)). nia. }
  assert (Hc0 : (0 <= c)%Z) by (unfold c; apply Z.div_pos; nia).
  assert (Hc3 : (c < 2 ^ 26)%Z) by nia.
  set (rnd := inject_Z c * pow2 (-26)).
  pose proof (pow2_pos (-26)) as Hp.
  assert (E26 : inject_Z (2 ^ 26) * pow2 (-26) == 1) by (vm_compute; reflexivity).
  assert (HcQ : 0 <= inject_Z c) by (change 0 with (inject_Z 0); rewrite <- Zle_Qle; lia).
  assert (Hr0 : 0 <= rnd) by (apply Qmult_le_0_compat; lra).
  assert (Hr1 : rnd < 1).
  { rewrite <- E26. apply Qmult_lt_compat_r; [exact Hp|].
    rewrite <- Zlt_Qlt. exact Hc3. }
  assert (Hrep : js_random rnd == rnd).
  { destruct (Z.eq_dec c 0) as [->|Hne].
    - reflexivity.
    - apply (to_double_exact Qfloor rnd c 26 Qfloor_exact); [lia|lia|reflexivity]. }
  exists rnd. split; [exact Hr0|]. split; [exact Hr1|]. split; [exact Hrep|].
  assert (Hprod : js_random rnd * inject_Z n == inject_Z (c * n) * pow2 (-26)).
  { rewrite Hrep. unfold rnd. rewrite inject_Z_mult. ring. }
  assert (Hmul : js_mul (js_random rnd) (inject_Z n)
                 == inject_Z (c * n) * pow2 (-26)).
  { unfold js_mul. destruct (Z.eq_dec (c * n) 0) as [E0|Hne].
    - assert (Hz : js_random rnd * inject_Z n == 0) by (rewrite Hprod, E0; reflexivity).
      rewrite E0. unfold to_double.
      rewrite (Qnum_of_zero _ Hz). reflexivity.
    - rewrite (to_double_exact round_half_even _ (c * n) 26
                 round_half_even_exact); [exact Hprod| |lia|exact Hprod].
      change (2 ^ 53)%Z with (2 ^ 27 * 2 ^ 26)%Z.
      assert (0 <= c * n)%Z by nia. nia. }
  rewrite Hmul.
  assert (Hfl : (inject_Z k <= inject_Z (c * n) * pow2 (-26))
                /\ inject_Z (c * n) * pow2 (-26) < inject_Z (k + 1)).
  { split.
    - apply (Qmult_le_r _ _ (inject_Z (2 ^ 26))); [reflexivity|].
      rewrite <- Qmult_assoc, (Qmult_comm (pow2 (-26))), E26, Qmult_1_r.
      rewrite <- inject_Z_mult, <- Zle_Qle. exact Hc1.
    - apply (Qmult_lt_r _ _ (inject_Z (2 ^ 26))); [reflexivity|].
      rewrite <- Qmult_assoc, (Qmult_comm (pow2 (-26))), E26, Qmult_1_r.
      rewrite <- inject_Z_mult, <- Zlt_Qlt. exact Hc2. }
  destruct Hfl as [Hlo Hhi].
  apply Z.le_antisymm.
  - assert (Qfloor (inject_Z (c * n) * pow2 (-26)) < k + 1)%Z; [|lia].
    rewrite Zlt_Qlt. eapply Qle_lt_trans; [apply Qfloor_le|exact Hhi].
  - rewrite <- (Qfloor_Z k). now apply Qfloor_resp_le.
Qed.

End DoubleArithmetic.

(** For a number in [[0, 1)] the computed index falls inside the array. *)
Lemma pick_move_in (rnd : Q) (avail : list nat) :
  random_range rnd -> avail <> [] ->
  exists m, pick_move rnd avail = Some m /\ In m avail.
Proof.
  intros [H0 H1] Hne. unfold pick_move.
  set (n := Z.of_nat (List.length avail)).
  assert (Hn : (1 <= n)%Z) by (destruct avail; [congruence|subst n; simpl; lia]).
  destruct (js_random_range rnd H0 H1) as [Hd0 Hd1].
  destruct (js_index_range _ n Hd0 Hd1 Hn) as [Hlo Hhi].
  destruct (Z.ltb_spec (Qfloor (js_mul (js_random rnd) (inject_Z n))) 0)
    as [Hneg|_]; [lia|].
  destruct (nth_error avail
              (Z.to_nat (Qfloor (js_mul (js_random rnd) (inject_Z n)))))
    as [m|] eqn:Hm.
  - exists m. split; [reflexivity|]. eapply nth_error_In; eauto.
  - apply nth_error_None in Hm. subst n. lia.
Qed.

(** With an empty cell on the board and [Math.random()] in its range,
    [makeAIMove] writes ["O"] into an empty cell and runs the resolution
    step on the result. *)
Lemma makeAIMove_places (rnd : Q) (s : state) :
  random_range rnd -> available (board s) <> [] ->
  exists move,
    In move (available (board s)) /\ js_get (board s) move = Null /\
    makeAIMove rnd s =
    handleBoardUpdate s (js_set (board s) move (Mark PLAYER_O)) true
      (setBoard (js_set (board s) move (Mark PLAYER_O)) s).
Proof.
  intros Hr Hne. unfold makeAIMove.
  destruct (Nat.eqb_spec (List.length (available (board s))) 0) as [H0|_].
  - destruct (available (board s)); [congruence|discriminate].
  - destruct (pick_move_in rnd _ Hr Hne) as (m & Hm & Hin).
    exists m. rewrite Hm. split; [exact Hin|].
    split; [now apply available_empty|reflexivity].
Qed.

(* ================================================================== *)
(** ** Invariants of the reachable states *)
(* ================================================================== *)

Lemma handleBoardUpdate_frame (s pending : state) (nb : squares) (x : bool) :
  board (handleBoardUpdate s nb x pending) = board pending
  /\ mode (handleBoardUpdate s nb x pending) = mode pending
  /\ gameStarted (handleBoardUpdate s nb x pending) = gameStarted pending.
Proof.
  unfold handleBoardUpdate.
  destruct (calculateWinner nb); try destruct (forallb not_null nb);
    simpl; auto.
Qed.

Lemma turn_inv_resolution (s pending : state) (nb : squares) (x : bool) :
  board pending = nb -> gameOver pending = false ->
  count_player PLAYER_X nb = count_player PLAYER_O nb + (if x then 0 else 1) ->
  turn_inv (handleBoardUpdate s nb x pending).
Proof.
  intros Hb Hg Hc.
  assert (Hbal : balanced nb) by (unfold balanced; destruct x; lia).
  destruct (calculateWinner_cases nb) as [Hw|[w Hw]].
  - destruct (forallb not_null nb) eqn:F.
    + rewrite handleBoardUpdate_draw by assumption.
      unfold turn_inv. simpl. now rewrite Hb.
    + rewrite handleBoardUpdate_continue by assumption.
      unfold turn_inv. simpl. rewrite Hg, Hb. now split.
  - rewrite (handleBoardUpdate_win _ _ _ _ w) by assumption.
    unfold turn_inv. simpl. now rewrite Hb.
Qed.

Lemma turn_inv_fresh (s : state) :
  board s = getInitialBoard -> gameOver s = false -> xIsNext s = true ->
  turn_inv s.
Proof.
  intros Hb Hg Hx. unfold turn_inv. rewrite Hg, Hb, Hx. now split.
Qed.

Lemma turn_inv_click (idx : nat) (s : state) :
  turn_inv s -> turn_inv (handleSquareClick idx s).
Proof.
  intros Hinv. unfold handleSquareClick.
  destruct (gameStarted s); simpl; [|exact Hinv].
  destruct (truthy (js_get (board s) idx)) eqn:Ht; simpl; [exact Hinv|].
  destruct (gameOver s) eqn:Hg; simpl; [exact Hinv|].
  destruct (String.eqb (mode s) MODES.SINGLE_PLAYER && negb (xIsNext s));
    [exact Hinv|].
  unfold turn_inv in Hinv. rewrite Hg in Hinv. destruct Hinv as [Hc _].
  apply turn_inv_resolution; [reflexivity|exact Hg|].
  rewrite !count_player_js_set by exact Ht.
  destruct (xIsNext s); simpl in *; lia.
Qed.

Lemma turn_inv_timer (rnd : Q) (s : state) :
  random_range rnd -> turn_inv s -> turn_inv (moveTimeout rnd s).
Proof.
  intros Hr Hinv. unfold moveTimeout, ai_scheduled.
  destruct (String.eqb (mode s) MODES.SINGLE_PLAYER); simpl; [|exact Hinv].
  destruct (gameStarted s); simpl; [|exact Hinv].
  destruct (gameOver s) eqn:Hg; simpl; [exact Hinv|].
  destruct (xIsNext s) eqn:Hx; simpl; [exact Hinv|].
  unfold turn_inv in Hinv. rewrite Hg, Hx in Hinv. destruct Hinv as [Hc Hf].
  destruct (makeAIMove_places rnd s Hr (available_nonempty _ Hf))
    as (m & _ & Hm & ->).
  apply turn_inv_resolution; [reflexivity|exact Hg|].
  rewrite !count_player_js_set by (now rewrite Hm).
  simpl. lia.
Qed.

Lemma reachable_turn_inv (s : state) : reachable s -> turn_inv s.
Proof.
  induction 1 as [|s e Hs IH Hok].
  - now apply turn_inv_fresh.
  - destruct e as [m| |idx|rnd]; simpl.
    + now apply turn_inv_fresh.
    + now apply turn_inv_fresh.
    + now apply turn_inv_click.
    + now apply turn_inv_timer.
Qed.

(** On every state the component can be in, the counts of the two
    symbols differ by at most one, [X] never behind. *)
Lemma reachable_balanced (s : state) : reachable s -> balanced (board s).
Proof.
  intros H. apply reachable_turn_inv in H. unfold turn_inv in H.
  destruct (gameOver s); [exact H|].
  destruct H as [H _]. unfold balanced. destruct (xIsNext s); lia.
Qed.

(** A game that is not over has an empty cell. *)
Lemma reachable_has_move (s : state) :
  reachable s -> gameOver s = false -> available (board s) <> [].
Proof.
  intros H Hg. apply reachable_turn_inv in H. unfold turn_inv in H.
  rewrite Hg in H. apply available_nonempty, H.
Qed.

(** Reads a field of the state after the resolution step from the
    pending state. *)
Ltac rewrite_frame :=
  match goal with
  | |- context [handleBoardUpdate ?a ?b ?c ?d] =>
      let Hb := fresh "Hb" in
      let Hm := fresh "Hm" in
      let Hs := fresh "Hs" in
      destruct (handleBoardUpdate_frame a d b c) as (Hb & Hm & Hs);
      rewrite ?Hb, ?Hm, ?Hs; clear Hb Hm Hs
  end.

Lemma handleSquareClick_gameStarted (idx : nat) (s : state) :
  gameStarted (handleSquareClick idx s) = gameStarted s.
Proof.
  unfold handleSquareClick.
  destruct (negb (gameStarted s) || truthy (js_get (board s) idx) || gameOver s);
    [reflexivity|].
  destruct (String.eqb (mode s) MODES.SINGLE_PLAYER && negb (xIsNext s));
    [reflexivity|].
  now rewrite_frame.
Qed.

Lemma moveTimeout_gameStarted (rnd : Q) (s : state) :
  gameStarted (moveTimeout rnd s) = gameStarted s.
Proof.
  unfold moveTimeout, makeAIMove.
  destruct (ai_scheduled s); [|reflexivity].
  destruct (Nat.eqb (List.length (available (board s))) 0); [reflexivity|].
  now rewrite_frame.
Qed.

Lemma handleSquareClick_not_started (idx : nat) (s : state) :
  gameStarted s = false -> handleSquareClick idx s = s.
Proof. intros H. unfold handleSquareClick. now rewrite H. Qed.

Lemma moveTimeout_not_started (rnd : Q) (s : state) :
  gameStarted s = false -> moveTimeout rnd s = s.
Proof.
  intros H. unfold moveTimeout, ai_scheduled. rewrite H.
  now rewrite andb_false_r.
Qed.

(** Before the first [startGame] nothing but the status line can differ
    from the first render. *)
Lemma reachable_not_started (s : state) :
  reachable s -> gameStarted s = false ->
  s = setStatus (status s) initialState.
Proof.
  induction 1 as [|s e Hs IH Hok]; intros Hn; [reflexivity|].
  destruct e as [m| |idx|rnd]; simpl in *.
  - discriminate.
  - specialize (IH Hn). rewrite IH. reflexivity.
  - rewrite handleSquareClick_gameStarted in Hn.
    rewrite handleSquareClick_not_started by exact Hn. now apply IH.
  - rewrite moveTimeout_gameStarted in Hn.
    rewrite moveTimeout_not_started by exact Hn. now apply IH.
Qed.

(* ================================================================== *)
(** ** Outcome of a move *)
(* ================================================================== *)

Lemma forallb_not_null_true (b : squares) :
  forallb not_null b = true <-> ~ In Null b.
Proof.
  induction b as [|c b IH]; simpl; [split; auto|].
  destruct c; simpl.
  - split; [discriminate|]. intros H. exfalso. apply H. now left.
  - rewrite IH. split; intros H.
    + intros [E|E]; [discriminate|auto].
    + intros E. apply H. now right.
  - rewrite IH. split; intros H.
    + intros [E|E]; [discriminate|auto].
    + intros E. apply H. now right.
Qed.

Lemma forallb_not_null_false (b : squares) :
  forallb not_null b = false <-> In Null b.
Proof.
  induction b as [|c b IH]; simpl; [split; [discriminate|tauto]|].
  destruct c; simpl.
  - split; auto.
  - rewrite IH. split; [now right|]. intros [E|E]; [discriminate|exact E].
  - rewrite IH. split; [now right|]. intros [E|E]; [discriminate|exact E].
Qed.

(** The resolution step on a started game that was going on. *)
Lemma handleBoardUpdate_resolution (s : state) (nb : squares) (x : bool) :
  gameStarted s = true -> gameOver s = false -> x = negb (xIsNext s) ->
  resolution s nb (handleBoardUpdate s nb x (setBoard nb s)).
Proof.
  intros Hst Hg Hx. unfold resolution.
  destruct (calculateWinner_cases nb) as [Hw|[w Hw]].
  - destruct (forallb not_null nb) eqn:F.
    + rewrite handleBoardUpdate_draw by assumption.
      apply forallb_not_null_true in F.
      split; [reflexivity|]. split; [reflexivity|]. split; [exact Hst|].
      split; [|split; [|split]].
      * intros w Hw'. congruence.
      * intros _ _. unfold gameStatus. simpl. rewrite Hst, Hw. simpl.
        repeat split; reflexivity.
      * intros _ Hin. contradiction.
      * now left.
    + rewrite handleBoardUpdate_continue by assumption.
      apply forallb_not_null_false in F.
      split; [reflexivity|]. split; [reflexivity|]. split; [exact Hst|].
      split; [|split; [|split]].
      * intros w Hw'. congruence.
      * intros _ Hin. contradiction.
      * intros _ _. unfold gameStatus. simpl. rewrite Hst, Hg. simpl.
        repeat split; try reflexivity; exact Hx.
      * now left.
  - rewrite (handleBoardUpdate_win _ _ _ _ w) by assumption.
    split; [reflexivity|]. split; [reflexivity|]. split; [exact Hst|].
    split; [|split; [|split]].
    + intros w' Hw'. assert (w' = w) by congruence. subst w'.
      unfold gameStatus. simpl. rewrite Hst, Hw. simpl.
      destruct w; repeat split; reflexivity.
    + congruence.
    + congruence.
    + right. now exists w.
Qed.

(* ================================================================== *)
(** ** The win detector: claims *)
(* ================================================================== *)

(** C3.  [calculateWinner] and [boardWinnerSquares] scan the eight lines
    in the order rows top to bottom, columns left to right, the two
    diagonals.  On every board: if no line holds three equal symbols
    the first returns [null] and the second [[]]; otherwise the first
    returns the symbol of the first line of the table that holds three
    equal symbols and the second returns that line.  Both are functions
    of the board alone. *)
Theorem calculateWinner_first_line :
  lines = [ [0; 1; 2]; [3; 4; 5]; [6; 7; 8];
            [0; 3; 6]; [1; 4; 7]; [2; 5; 8];
            [0; 4; 8]; [2; 4; 6] ]
  /\ (forall sq : squares,
        (forall l q, In l lines -> ~ line_wins sq l q) ->
        calculateWinner sq = Null /\ boardWinnerSquares sq = [])
  /\ (forall (sq : squares) pre l post p,
        lines = pre ++ l :: post ->
        (forall l' q, In l' pre -> ~ line_wins sq l' q) ->
        line_wins sq l p ->
        calculateWinner sq = Mark p /\ boardWinnerSquares sq = l)
  /\ (forall sq sq' : squares,
        sq = sq' ->
        calculateWinner sq = calculateWinner sq'
        /\ boardWinnerSquares sq = boardWinnerSquares sq').
Proof.
  split; [reflexivity|]. split; [|split].
  - intros sq Hno. now apply loops_none.
  - intros sq pre l post p Hl Hno Hwin.
    unfold calculateWinner, boardWinnerSquares. rewrite Hl.
    now apply loops_first.
  - intros sq sq' ->. now split.
Qed.

(** C3 at a board whose middle row is the first complete line, with a
    complete left column after it in the table. *)
Lemma calculateWinner_first_line_witness :
  calculateWinner
    [Mark PLAYER_O; Mark PLAYER_X; Null;
     Mark PLAYER_O; Mark PLAYER_O; Mark PLAYER_O;
     Mark PLAYER_O; Mark PLAYER_X; Mark PLAYER_X] = Mark PLAYER_O
  /\ boardWinnerSquares
       [Mark PLAYER_O; Mark PLAYER_X; Null;
        Mark PLAYER_O; Mark PLAYER_O; Mark PLAYER_O;
        Mark PLAYER_O; Mark PLAYER_X; Mark PLAYER_X] = [3; 4; 5].
Proof.
  apply (proj1 (proj2 (proj2 calculateWinner_first_line))
           _ [[0; 1; 2]] [3; 4; 5]
           [[6; 7; 8]; [0; 3; 6]; [1; 4; 7]; [2; 5; 8]; [0; 4; 8]; [2; 4; 6]]
           PLAYER_O).
  - reflexivity.
  - intros l' q [<-|[]]. simpl. intros (_ & _ & H). discriminate.
  - simpl. repeat split; reflexivity.
Defined.

(** C10.  On every board [calculateWinner] returns a symbol exactly when
    [boardWinnerSquares] returns a non-empty array; that array is then a
    line of three indices whose cells all hold the returned symbol, and
    otherwise the first returns [null] and the second [[]]. *)
Theorem detectors_agree (sq : squares) :
  ((exists p, calculateWinner sq = Mark p) <-> boardWinnerSquares sq <> [])
  /\ (forall p, calculateWinner sq = Mark p ->
        exists a b c,
          boardWinnerSquares sq = [a; b; c]
          /\ js_get sq a = Mark p /\ js_get sq b = Mark p
          /\ js_get sq c = Mark p)
  /\ (calculateWinner sq = Null <-> boardWinnerSquares sq = [])
  /\ (calculateWinner sq = Null \/ exists p, calculateWinner sq = Mark p).
Proof.
  assert (Hline : forall p, calculateWinner sq = Mark p ->
            exists a b c,
              boardWinnerSquares sq = [a; b; c]
              /\ js_get sq a = Mark p /\ js_get sq b = Mark p
              /\ js_get sq c = Mark p).
  { intros p Hp.
    destruct (calculateWinner_line sq p Hp)
      as (a & b & c & _ & _ & _ & _ & Hb & Hrest).
    exists a, b, c. tauto. }
  assert (Hnull : calculateWinner sq = Null <-> boardWinnerSquares sq = []).
  { unfold calculateWinner, boardWinnerSquares.
    destruct (loops_agree sq lines) as [[H1 H2]|(p & H1 & Hin & _)].
    - rewrite H1, H2. tauto.
    - destruct (lines_shape _ Hin) as (a & b & c & Hl & _).
      rewrite H1, Hl. split; discriminate. }
  split; [|split; [exact Hline|split; [exact Hnull|apply calculateWinner_cases]]].
  split.
  - intros [p Hp] He. apply Hnull in He. congruence.
  - intros Hne. destruct (calculateWinner_cases sq) as [H|H]; [|exact H].
    apply Hnull in H. contradiction.
Qed.

(** C10 at the board of a game [X] has won on the top row. *)
Lemma detectors_agree_witness :
  exists a b c,
    boardWinnerSquares
      [Mark PLAYER_X; Mark PLAYER_X; Mark PLAYER_X;
       Mark PLAYER_O; Mark PLAYER_O; Null; Null; Null; Null] = [a; b; c]
    /\ js_get [Mark PLAYER_X; Mark PLAYER_X; Mark PLAYER_X;
               Mark PLAYER_O; Mark PLAYER_O; Null; Null; Null; Null] a
       = Mark PLAYER_X
    /\ js_get [Mark PLAYER_X; Mark PLAYER_X; Mark PLAYER_X;
               Mark PLAYER_O; Mark PLAYER_O; Null; Null; Null; Null] b
       = Mark PLAYER_X
    /\ js_get [Mark PLAYER_X; Mark PLAYER_X; Mark PLAYER_X;
               Mark PLAYER_O; Mark PLAYER_O; Null; Null; Null; Null] c
       = Mark PLAYER_X.
Proof.
  apply (proj1 (proj2 (detectors_agree
           [Mark PLAYER_X; Mark PLAYER_X; Mark PLAYER_X;
            Mark PLAYER_O; Mark PLAYER_O; Null; Null; Null; Null]))
           PLAYER_X).
  reflexivity.
Defined.

(** C7, as stated, fails: three symbols on the top row and nothing else
    is a 9-cell board with fewer than five symbols, and the detector
    returns a winner on it. *)
Lemma calculateWinner_three_symbols_win :
  List.length [Mark PLAYER_X; Mark PLAYER_X; Mark PLAYER_X;
               Null; Null; Null; Null; Null; Null] = 9
  /\ placed [Mark PLAYER_X; Mark PLAYER_X; Mark PLAYER_X;
             Null; Null; Null; Null; Null; Null] < 5
  /\ calculateWinner [Mark PLAYER_X; Mark PLAYER_X; Mark PLAYER_X;
                      Null; Null; Null; Null; Null; Null] <> Null.
Proof.
  split; [reflexivity|]. split; [vm_compute; lia|]. vm_compute. discriminate.
Qed.

Lemma reachable_run (s : state) (es : list event) :
  reachable s -> Forall event_ok es -> reachable (run s es).
Proof.
  revert s. induction es as [|e es IH]; intros s Hs Hok; [exact Hs|].
  simpl. inversion Hok; subst. apply IH; [|assumption].
  now apply reachable_step.
Qed.

(** C7, amended.  [calculateWinner] returns no winner for the empty
    board, for every board with fewer than 3 symbols, and for every
    board with fewer than 5 symbols on which the two symbols alternate
    with [X] first; every board the game reaches is such a board. *)
Theorem calculateWinner_no_early_winner :
  calculateWinner getInitialBoard = Null
  /\ (forall sq : squares, placed sq < 3 -> calculateWinner sq = Null)
  /\ (forall sq : squares,
        balanced sq -> placed sq < 5 -> calculateWinner sq = Null)
  /\ (forall s : state,
        reachable s -> placed (board s) < 5 ->
        calculateWinner (board s) = Null).
Proof.
  assert (Hbal : forall sq, balanced sq -> placed sq < 5 ->
                            calculateWinner sq = Null).
  { intros sq [H1 H2] Hp. rewrite placed_count in Hp.
    apply calculateWinner_few; lia. }
  split; [reflexivity|]. split; [|split; [exact Hbal|]].
  - intros sq Hp. rewrite placed_count in Hp.
    apply calculateWinner_few; lia.
  - intros s Hs Hp. apply Hbal; [|exact Hp]. now apply reachable_balanced.
Qed.

(** C7 (amended) after the first four moves of a two-player game. *)
Lemma calculateWinner_no_early_winner_witness :
  calculateWinner
    (board (run initialState
              [EStart MODES.TWO_PLAYER; EClick 0; EClick 3; EClick 1; EClick 4]))
  = Null.
Proof.
  apply (proj2 (proj2 (proj2 calculateWinner_no_early_winner))).
  - apply reachable_run; [apply reachable_init|].
    repeat constructor.
  - vm_compute. lia.
Defined.

(* ================================================================== *)
(** ** The move operations *)
(* ================================================================== *)

Lemma mode_single_eqb (s : state) :
  String.eqb (mode s) MODES.SINGLE_PLAYER = true <-> mode s = MODES.SINGLE_PLAYER.
Proof. apply String.eqb_eq. Qed.

Lemma handleSquareClick_rejected (idx : nat) (s : state) :
  click_rejected idx s -> handleSquareClick idx s = s.
Proof.
  unfold click_rejected, handleSquareClick.
  intros [H|[H|[H|[Hm Hx]]]].
  - now rewrite H.
  - rewrite H. now rewrite !orb_true_r.
  - rewrite H. now rewrite orb_true_r.
  - apply mode_single_eqb in Hm. rewrite Hm, Hx. simpl.
    now destruct (negb (gameStarted s) || truthy (js_get (board s) idx)
                  || gameOver s).
Qed.

Lemma handleSquareClick_accepted (idx : nat) (s : state) :
  click_accepted idx s ->
  handleSquareClick idx s =
  handleBoardUpdate s (js_set (board s) idx (Mark (turn s))) (negb (xIsNext s))
    (setBoard (js_set (board s) idx (Mark (turn s))) s).
Proof.
  unfold click_accepted, handleSquareClick, turn.
  intros (Hst & Hg & Ht & Hm). rewrite Hst, Hg, Ht. simpl.
  destruct (String.eqb (mode s) MODES.SINGLE_PLAYER) eqn:E; [|reflexivity].
  apply mode_single_eqb in E. now rewrite (Hm E).
Qed.

Lemma click_rejected_or_accepted (idx : nat) (s : state) :
  click_rejected idx s \/ click_accepted idx s.
Proof.
  unfold click_rejected, click_accepted.
  destruct (gameStarted s); [|left; now left].
  destruct (gameOver s); [left; right; now left|].
  destruct (truthy (js_get (board s) idx)); [left; right; right; now left|].
  destruct (String.eqb_spec (mode s) MODES.SINGLE_PLAYER) as [E|E].
  - destruct (xIsNext s).
    + right. now repeat split.
    + left. right. right. right. now split.
  - right. repeat split; try reflexivity. intros H. contradiction.
Qed.

Lemma click_not_both (idx : nat) (s : state) :
  click_rejected idx s -> click_accepted idx s -> False.
Proof.
  unfold click_rejected, click_accepted.
  intros [H|[H|[H|[Hm Hx]]]] (Hst & Hg & Ht & Hm'); try congruence.
  specialize (Hm' Hm). congruence.
Qed.

Lemma moveTimeout_unscheduled (rnd : Q) (s : state) :
  ai_scheduled s = false -> moveTimeout rnd s = s.
Proof. intros H. unfold moveTimeout. now rewrite H. Qed.

Lemma ai_scheduled_true (s : state) :
  ai_scheduled s = true <->
  mode s = MODES.SINGLE_PLAYER /\ gameStarted s = true
  /\ gameOver s = false /\ xIsNext s = false.
Proof.
  unfold ai_scheduled.
  rewrite !andb_true_iff, !negb_true_iff, mode_single_eqb. tauto.
Qed.

(** The timer firing on a board with an empty cell: ["O"] goes into an
    empty cell and the resolution step runs on the result. *)
Lemma moveTimeout_scheduled (rnd : Q) (s : state) :
  random_range rnd -> ai_scheduled s = true -> In Null (board s) ->
  exists move,
    js_get (board s) move = Null /\
    moveTimeout rnd s =
    handleBoardUpdate s (js_set (board s) move (Mark PLAYER_O))
      (negb (xIsNext s))
      (setBoard (js_set (board s) move (Mark PLAYER_O)) s).
Proof.
  intros Hr Hs Hin. unfold moveTimeout. rewrite Hs.
  apply ai_scheduled_true in Hs. destruct Hs as (_ & _ & _ & Hx).
  apply forallb_not_null_false, available_nonempty in Hin.
  destruct (makeAIMove_places rnd s Hr Hin) as (m & _ & Hm & ->).
  exists m. rewrite Hx. now split.
Qed.

(** A move event either changes nothing or runs the resolution step
    once, on a started game that was going on. *)
Lemma move_outcome (s : state) (e : event) :
  is_move e ->
  step s e = s
  \/ (gameStarted s = true /\ gameOver s = false
      /\ exists nb, step s e =
           handleBoardUpdate s nb (negb (xIsNext s)) (setBoard nb s)).
Proof.
  destruct e as [m| |idx|rnd]; simpl; try contradiction; intros _.
  - destruct (click_rejected_or_accepted idx s) as [H|H].
    + left. now apply handleSquareClick_rejected.
    + right. rewrite (handleSquareClick_accepted idx s H).
      destruct H as (Hst & Hg & _). eauto.
  - destruct (ai_scheduled s) eqn:Hs.
    + apply ai_scheduled_true in Hs. destruct Hs as (_ & Hst & Hg & Hx).
      unfold moveTimeout, makeAIMove.
      destruct (ai_scheduled s); [|now left].
      destruct (Nat.eqb (List.length (available (board s))) 0); [now left|].
      right. rewrite Hx. simpl. eauto.
    + left. now apply moveTimeout_unscheduled.
Qed.

Lemma resolution_score (s s' : state) (nb : squares) :
  resolution s nb s' ->
  (gameOver s' = true
   /\ score_credit (gameStatus s') (score s) (score s')
   /\ (gameStatus s' = DRAWN \/ exists w, gameStatus s' = WON w)
   /\ score_total (score s') = score_total (score s) + 1)
  \/ (gameOver s' = false /\ score s' = score s).
Proof.
  intros (_ & _ & _ & Hwin & Hdraw & Hcont & Hcases).
  destruct Hcases as [Hn|[w Hw]].
  - destruct (forallb not_null nb) eqn:F.
    + apply forallb_not_null_true in F.
      destruct (Hdraw Hn F) as (Hg & Hs & Hc & _). left.
      rewrite Hs. split; [exact Hg|]. split; [exact Hc|]. split; [now left|].
      unfold score_total. simpl in Hc. lia.
    + apply forallb_not_null_false in F.
      destruct (Hcont Hn F) as (Hg & _ & Hsc & _). now right.
  - destruct (Hwin w Hw) as (Hg & Hs & Hc & _). left.
    rewrite Hs. split; [exact Hg|]. split; [exact Hc|].
    split; [right; now exists w|].
    unfold score_total. destruct w; simpl in Hc; lia.
Qed.

Lemma move_score (s : state) (e : event) :
  is_move e ->
  step s e = s
  \/ (gameOver s = false /\ gameOver (step s e) = true
      /\ score_credit (gameStatus (step s e)) (score s) (score (step s e))
      /\ (gameStatus (step s e) = DRAWN
          \/ exists w, gameStatus (step s e) = WON w)
      /\ score_total (score (step s e)) = score_total (score s) + 1)
  \/ (gameOver s = false /\ gameOver (step s e) = false
      /\ score (step s e) = score s).
Proof.
  intros Hm. destruct (move_outcome s e Hm) as [H|(Hst & Hg & nb & ->)];
    [now left|].
  right.
  destruct (resolution_score s _ nb
              (handleBoardUpdate_resolution s nb _ Hst Hg eq_refl))
    as [H|H]; [left|right]; tauto.
Qed.


Lemma move_game_over (s : state) (e : event) :
  is_move e -> gameOver s = true -> step s e = s.
Proof.
  intros Hm Hg. destruct (move_outcome s e Hm) as [H|(_ & Hg' & _)];
    [exact H|congruence].
Qed.

Lemma resolution_turn (s s' : state) (nb : squares) :
  resolution s nb s' ->
  (gameOver s' = false -> xIsNext s' = negb (xIsNext s))
  /\ (gameOver s' = true -> xIsNext s' = xIsNext s).
Proof.
  intros (_ & _ & _ & Hwin & Hdraw & Hcont & Hcases).
  destruct Hcases as [Hn|[w Hw]].
  - destruct (forallb not_null nb) eqn:F.
    + apply forallb_not_null_true in F.
      destruct (Hdraw Hn F) as (Hg & _ & _ & Hx & _).
      split; [congruence|auto].
    + apply forallb_not_null_false in F.
      destruct (Hcont Hn F) as (Hg & _ & _ & Hx).
      split; [auto|congruence].
  - destruct (Hwin w Hw) as (Hg & _ & _ & Hx & _).
    split; [congruence|auto].
Qed.

(* ================================================================== *)
(** ** The game engine: claims *)
(* ================================================================== *)

(** C1.  Every accepted move runs [handleBoardUpdate] once, on the board
    with the new symbol: a click that passes the guards of
    [handleSquareClick], and the computer's move when the timer fires on
    a board with an empty cell.  If [calculateWinner] finds a winner on
    that board the game is won by it and its counter goes up by 1;
    otherwise, if no cell is [null], the game is drawn and the draw
    counter goes up by 1; otherwise the turn passes to the other symbol
    and the game stays in progress.  The winner is looked for first: a
    move that fills the board and completes a line is a win. *)
Theorem resolution_after_every_move :
  (forall idx s,
     click_accepted idx s ->
     handleSquareClick idx s =
       handleBoardUpdate s (js_set (board s) idx (Mark (turn s)))
         (negb (xIsNext s))
         (setBoard (js_set (board s) idx (Mark (turn s))) s)
     /\ resolution s (js_set (board s) idx (Mark (turn s)))
          (handleSquareClick idx s))
  /\ (forall rnd s,
        random_range rnd -> ai_scheduled s = true -> In Null (board s) ->
        exists move,
          js_get (board s) move = Null
          /\ moveTimeout rnd s =
               handleBoardUpdate s (js_set (board s) move (Mark PLAYER_O)) true
                 (setBoard (js_set (board s) move (Mark PLAYER_O)) s)
          /\ resolution s (js_set (board s) move (Mark PLAYER_O))
               (moveTimeout rnd s))
  /\ (forall s nb s' w,
        resolution s nb s' -> ~ In Null nb -> calculateWinner nb = Mark w ->
        gameStatus s' = WON w
        /\ Score.Draw (score s') = Score.Draw (score s)).
Proof.
  split; [|split].
  - intros idx s Hacc. split; [now apply handleSquareClick_accepted|].
    rewrite handleSquareClick_accepted by exact Hacc.
    destruct Hacc as (Hst & Hg & _).
    now apply handleBoardUpdate_resolution.
  - intros rnd s Hr Hs Hin.
    destruct (moveTimeout_scheduled rnd s Hr Hs Hin) as (m & Hm & Heq).
    apply ai_scheduled_true in Hs. destruct Hs as (_ & Hst & Hg & Hx).
    exists m. split; [exact Hm|]. rewrite Heq, Hx. simpl.
    split; [reflexivity|].
    apply handleBoardUpdate_resolution; auto. now rewrite Hx.
  - intros s nb s' w (_ & _ & _ & Hwin & _) _ Hw.
    destruct (Hwin w Hw) as (_ & Hs & Hc & _). split; [exact Hs|].
    destruct w; simpl in Hc; tauto.
Qed.

(** C1 at the fifth move of the top-row game (a click) and at the
    computer's first move of a single-player game. *)
Lemma resolution_after_every_move_witness :
  resolution (run initialState top_row_opening)
    (js_set (board (run initialState top_row_opening)) 2
       (Mark (turn (run initialState top_row_opening))))
    (handleSquareClick 2 (run initialState top_row_opening))
  /\ exists move,
       js_get (board (run initialState single_player_opening)) move = Null
       /\ resolution (run initialState single_player_opening)
            (js_set (board (run initialState single_player_opening)) move
               (Mark PLAYER_O))
            (moveTimeout (1 # 2) (run initialState single_player_opening)).
Proof.
  split.
  - apply (proj1 resolution_after_every_move 2
             (run initialState top_row_opening)).
    unfold click_accepted. cbv. repeat split; reflexivity.
  - destruct (proj1 (proj2 resolution_after_every_move) (1 # 2)
                (run initialState single_player_opening))
      as (m & Hm & _ & Hres).
    + split; unfold Qle, Qlt; simpl; lia.
    + reflexivity.
    + simpl. right. now left.
    + exists m. now split.
Defined.

(** C2.  [handleSquareClick] changes nothing when the game has not
    started, when it is over, when the cell holds a symbol, or when in
    single-player mode it is not [X]'s turn; in every other case it
    writes the symbol of the current turn into the cell and runs the
    resolution step on that board.  The two cases exclude each other and
    leave nothing out. *)
Theorem handleSquareClick_guard (idx : nat) (s : state) :
  (click_rejected idx s -> handleSquareClick idx s = s)
  /\ (click_accepted idx s ->
        handleSquareClick idx s =
          handleBoardUpdate s (js_set (board s) idx (Mark (turn s)))
            (negb (xIsNext s))
            (setBoard (js_set (board s) idx (Mark (turn s))) s)
        /\ board (handleSquareClick idx s) =
             js_set (board s) idx (Mark (turn s))
        /\ js_get (board (handleSquareClick idx s)) idx = Mark (turn s))
  /\ (click_rejected idx s \/ click_accepted idx s)
  /\ ~ (click_rejected idx s /\ click_accepted idx s).
Proof.
  split; [apply handleSquareClick_rejected|].
  split; [|split; [apply click_rejected_or_accepted|]].
  - intros Hacc. rewrite handleSquareClick_accepted by exact Hacc.
    split; [reflexivity|].
    rewrite_frame. simpl. split; [reflexivity|apply js_get_js_set_same].
  - intros [Hr Ha]. exact (click_not_both idx s Hr Ha).
Qed.

(** C2 at a click on the occupied cell 0 and at a click on the free
    cell 2, both after the first four moves of the top-row game. *)
Lemma handleSquareClick_guard_witness :
  handleSquareClick 0 (run initialState top_row_opening)
  = run initialState top_row_opening
  /\ js_get (board (handleSquareClick 2 (run initialState top_row_opening))) 2
     = Mark PLAYER_X.
Proof.
  split.
  - apply (proj1 (handleSquareClick_guard 0 (run initialState top_row_opening))).
    unfold click_rejected. right. right. left. reflexivity.
  - apply (proj1 (proj2 (handleSquareClick_guard 2
                           (run initialState top_row_opening)))).
    unfold click_accepted. cbv. repeat split; reflexivity.
Defined.



(** C5, as stated, fails for [makeAIMove]: the function does not test
    [gameOver].  Called on the finished single-player game the computer
    has won, it writes another ["O"] into the empty cell 6 and credits
    the win a second time. *)
Lemma makeAIMove_ignores_gameOver :
  gameOver (run initialState computer_wins_game) = true
  /\ makeAIMove (1 # 2) (run initialState computer_wins_game)
     <> run initialState computer_wins_game
  /\ js_get (board (run initialState computer_wins_game)) 6 = Null
  /\ js_get (board (makeAIMove (1 # 2) (run initialState computer_wins_game))) 6
     = Mark PLAYER_O
  /\ score (run initialState computer_wins_game) = Score.mk 0 1 0
  /\ score (makeAIMove (1 # 2) (run initialState computer_wins_game))
     = Score.mk 0 2 0.
Proof.
  split; [vm_compute; reflexivity|]. split.
  - intros H. apply (f_equal score) in H. vm_compute in H. discriminate.
  - repeat split; vm_compute; reflexivity.
Qed.

(** C5, amended.  Once [gameOver] is set, a click on any cell changes
    nothing, the effect does not arm the move timer, so that the
    computer's move is not made, and any sequence of clicks and timer
    events leaves the whole state as it is: the board stays frozen until
    [startGame] or [restartGame].  ([makeAIMove] is reached through the
    timer only.) *)
Theorem game_over_freezes (s : state) :
  gameOver s = true ->
  (forall idx, handleSquareClick idx s = s)
  /\ ai_scheduled s = false
  /\ (forall rnd, moveTimeout rnd s = s)
  /\ (forall es, Forall is_move es -> run s es = s).
Proof.
  intros Hg. split; [|split; [|split]].
  - intros idx. exact (move_game_over s (EClick idx) I Hg).
  - unfold ai_scheduled. rewrite Hg. simpl. now rewrite andb_false_r.
  - intros rnd. exact (move_game_over s (ETimer rnd) I Hg).
  - intros es Hes. induction Hes as [|e es He _ IH]; [reflexivity|].
    simpl. now rewrite (move_game_over s e He Hg).
Qed.

(** C5 (amended) at the end of the single-player game the computer has
    won, where it is still ["O"]'s turn and only [gameOver] keeps the
    timer from being armed. *)
Lemma game_over_freezes_witness :
  handleSquareClick 2 (run initialState computer_wins_game)
  = run initialState computer_wins_game
  /\ ai_scheduled (run initialState computer_wins_game) = false
  /\ moveTimeout (1 # 2) (run initialState computer_wins_game)
     = run initialState computer_wins_game.
Proof.
  destruct (game_over_freezes (run initialState computer_wins_game))
    as (Hc & Hs & Ht & _).
  - vm_compute. reflexivity.
  - split; [apply Hc|]. split; [exact Hs|apply Ht].
Defined.

(** C6, as stated, fails: before any game has been started
    [restartGame] is not a no-op, it replaces the status line. *)
Lemma restartGame_before_start_changes_state :
  gameStarted initialState = false
  /\ restartGame initialState <> initialState
  /\ status (restartGame initialState) = "Game reset. X's turn"
  /\ status initialState = "Choose a mode & start the game.".
Proof.
  split; [reflexivity|]. split; [|split; reflexivity].
  intros H. apply (f_equal status) in H. vm_compute in H. discriminate.
Qed.

(** C6, amended.  [restartGame] empties the board, gives the turn to
    [X], clears [gameOver] and keeps the mode, the score and
    [gameStarted]; after it a started game is in progress.  It does not
    test [gameStarted]: before the first start it makes the same
    updates, and there they change nothing but the status line. *)
Theorem restartGame_resets (s : state) :
  board (restartGame s) = getInitialBoard
  /\ xIsNext (restartGame s) = true
  /\ gameOver (restartGame s) = false
  /\ mode (restartGame s) = mode s
  /\ score (restartGame s) = score s
  /\ gameStarted (restartGame s) = gameStarted s
  /\ (gameStarted s = true -> gameStatus (restartGame s) = IN_PROGRESS)
  /\ (reachable s -> gameStarted s = false ->
        restartGame s = setStatus "Game reset. X's turn" s
        /\ gameStatus (restartGame s) = NOT_STARTED).
Proof.
  repeat (split; [reflexivity|]). split.
  - intros Hst. unfold gameStatus. simpl. now rewrite Hst.
  - intros Hr Hn. split.
    + rewrite (reachable_not_started s Hr Hn). reflexivity.
    + unfold gameStatus. simpl. now rewrite Hn.
Qed.

(** C6 (amended) after the top-row game: the score [X: 1, O: 0, Draw: 0]
    survives and the game is in progress again. *)
Lemma restartGame_resets_witness :
  gameStatus (restartGame (run initialState top_row_game)) = IN_PROGRESS
  /\ score (restartGame (run initialState top_row_game)) = Score.mk 1 0 0
  /\ restartGame initialState = setStatus "Game reset. X's turn" initialState.
Proof.
  destruct (restartGame_resets (run initialState top_row_game))
    as (_ & _ & _ & _ & Hsc & _ & Hst & _).
  destruct (restartGame_resets initialState)
    as (_ & _ & _ & _ & _ & _ & _ & Hn).
  split; [apply Hst; reflexivity|].
  split; [rewrite Hsc; reflexivity|].
  apply Hn; [apply reachable_init|reflexivity].
Defined.

(** C8, as stated, fails: [startGame] does not look at its argument; a
    string that is neither mode starts a game and becomes the mode. *)
Lemma startGame_unknown_mode_starts :
  "EXPERT" <> MODES.TWO_PLAYER /\ "EXPERT" <> MODES.SINGLE_PLAYER
  /\ startGame "EXPERT" initialState <> initialState
  /\ mode (startGame "EXPERT" initialState) = "EXPERT"
  /\ gameStarted (startGame "EXPERT" initialState) = true.
Proof.
  split; [discriminate|]. split; [discriminate|].
  split; [|split; reflexivity].
  intros H. apply (f_equal gameStarted) in H. discriminate.
Qed.

(** C8, amended.  Whatever value it is given, valid mode or not,
    [startGame] makes it the mode, empties the board, gives the turn to
    [X], clears [gameOver], sets [gameStarted], so that the game is in
    progress, and keeps the score. *)
Theorem startGame_starts (selectedMode : string) (s : state) :
  mode (startGame selectedMode s) = selectedMode
  /\ board (startGame selectedMode s) = getInitialBoard
  /\ xIsNext (startGame selectedMode s) = true
  /\ gameOver (startGame selectedMode s) = false
  /\ gameStarted (startGame selectedMode s) = true
  /\ gameStatus (startGame selectedMode s) = IN_PROGRESS
  /\ score (startGame selectedMode s) = score s.
Proof. repeat split; reflexivity. Qed.

(** C9, as stated, fails: the winning click of the top-row game is
    accepted, and [xIsNext] is [true] before and after it. *)
Lemma winning_move_keeps_turn :
  click_accepted 2 (run initialState top_row_opening)
  /\ xIsNext (run initialState top_row_opening) = true
  /\ xIsNext (handleSquareClick 2 (run initialState top_row_opening)) = true
  /\ xIsNext (handleSquareClick 2 (run initialState top_row_opening))
     <> negb (xIsNext (run initialState top_row_opening)).
Proof.
  split; [unfold click_accepted; cbv; repeat split; reflexivity|].
  split; [reflexivity|]. split; [reflexivity|]. vm_compute. discriminate.
Qed.

(** C9, amended.  [xIsNext] is [true] on the first render and after
    [startGame] and [restartGame].  An accepted move, human or computer,
    after which the game goes on flips it once; an accepted move that
    ends the game leaves it as it was; a rejected click leaves it as it
    was. *)
Theorem turn_flips_while_game_goes_on :
  xIsNext initialState = true
  /\ (forall m s, xIsNext (startGame m s) = true)
  /\ (forall s, xIsNext (restartGame s) = true)
  /\ (forall idx s,
        click_accepted idx s ->
        (gameOver (handleSquareClick idx s) = false ->
         xIsNext (handleSquareClick idx s) = negb (xIsNext s))
        /\ (gameOver (handleSquareClick idx s) = true ->
            xIsNext (handleSquareClick idx s) = xIsNext s))
  /\ (forall rnd s,
        random_range rnd -> ai_scheduled s = true -> In Null (board s) ->
        (gameOver (moveTimeout rnd s) = false ->
         xIsNext (moveTimeout rnd s) = negb (xIsNext s))
        /\ (gameOver (moveTimeout rnd s) = true ->
            xIsNext (moveTimeout rnd s) = xIsNext s))
  /\ (forall idx s,
        click_rejected idx s -> xIsNext (handleSquareClick idx s) = xIsNext s).
Proof.
  split; [reflexivity|]. split; [reflexivity|]. split; [reflexivity|].
  split; [|split].
  - intros idx s Hacc.
    rewrite handleSquareClick_accepted by exact Hacc.
    destruct Hacc as (Hst & Hg & _).
    eapply resolution_turn. now apply handleBoardUpdate_resolution.
  - intros rnd s Hr Hs Hin.
    destruct (moveTimeout_scheduled rnd s Hr Hs Hin) as (m & _ & ->).
    apply ai_scheduled_true in Hs. destruct Hs as (_ & Hst & Hg & _).
    eapply resolution_turn. now apply handleBoardUpdate_resolution.
  - intros idx s Hrej. now rewrite handleSquareClick_rejected.
Qed.

(** C9 (amended) at the first click of a single-player game and at the
    computer's answer. *)
Lemma turn_flips_while_game_goes_on_witness :
  xIsNext (handleSquareClick 0 (startGame MODES.SINGLE_PLAYER initialState))
  = false
  /\ xIsNext (moveTimeout (1 # 2) (run initialState single_player_opening))
     = true.
Proof.
  split.
  - apply (proj1 (proj1 (proj2 (proj2 (proj2 turn_flips_while_game_goes_on)))
                   0 (startGame MODES.SINGLE_PLAYER initialState)
                   ltac:(unfold click_accepted; simpl; repeat split; reflexivity))).
    reflexivity.
  - apply (proj1 (proj1 (proj2 (proj2 (proj2 (proj2
                   turn_flips_while_game_goes_on))))
                   (1 # 2) (run initialState single_player_opening)
                   ltac:(split; unfold Qle, Qlt; simpl; lia)
                   eq_refl
                   ltac:(simpl; right; now left))).
    reflexivity.
Defined.

(* ================================================================== *)
(** ** Further properties: arrays and the computer's choice *)
(* ================================================================== *)

Lemma js_get_js_set_other (sq : squares) (i j : nat) (v : cell) :
  i <> j -> js_get (js_set sq i v) j = js_get sq j.
Proof.
  revert sq j. induction i as [|i IH]; intros [|c sq] [|j] Hij;
    try congruence; simpl; unfold js_get; simpl; try reflexivity.
  - now destruct j.
  - fold (js_get (js_set [] i v) j). rewrite IH by congruence.
    now rewrite js_get_nil; destruct j.
  - fold (js_get (js_set sq i v) j). rewrite IH by congruence. reflexivity.
Qed.

Lemma js_set_length (sq : squares) (i : nat) (v : cell) :
  i < List.length sq -> List.length (js_set sq i v) = List.length sq.
Proof.
  revert sq. induction i as [|i IH]; intros [|c sq] Hi; simpl in *; try lia.
  rewrite IH; [reflexivity|lia].
Qed.

Lemma js_get_Null_lt (sq : squares) (m : nat) :
  js_get sq m = Null -> m < List.length sq.
Proof.
  intros H. destruct (Nat.lt_ge_cases m (List.length sq)) as [Hlt|Hge];
    [exact Hlt|].
  unfold js_get in H. rewrite nth_overflow in H by exact Hge. discriminate.
Qed.

Lemma map_index_complete (l : squares) (i k : nat) :
  nth k l Undefined = Null ->
  In (i + k)
    (filter_not_null
       (map_index (fun val idx => if cell_eqb val Null then Some idx else None) l i)).
Proof.
  revert i k. induction l as [|x l IH]; intros i k H.
  - destruct k; discriminate.
  - destruct k as [|k]; simpl in *.
    + subst x. simpl. left. lia.
    + specialize (IH (S i) k H). replace (i + S k) with (S i + k) by lia.
      destruct (cell_eqb x Null); [now right|exact IH].
Qed.

Lemma map_index_NoDup (l : squares) (i : nat) :
  NoDup
    (filter_not_null
       (map_index (fun val idx => if cell_eqb val Null then Some idx else None) l i)).
Proof.
  revert i. induction l as [|x l IH]; intros i; simpl; [constructor|].
  destruct (cell_eqb x Null); [|apply IH].
  constructor; [|apply IH].
  intros Hin. apply map_index_available in Hin. lia.
Qed.

Lemma placed_js_set (sq : squares) (i : nat) (p : player) :
  truthy (js_get sq i) = false ->
  placed (js_set sq i (Mark p)) = placed sq + 1.
Proof.
  intros H. rewrite !placed_count, !count_player_js_set by exact H.
  destruct p; simpl; lia.
Qed.

Lemma placed_le_length (sq : squares) : placed sq <= List.length sq.
Proof. unfold placed. apply filter_length_le. Qed.

Lemma placed_lt_length (sq : squares) :
  In Null sq -> placed sq < List.length sq.
Proof.
  induction sq as [|c sq IH]; simpl; [contradiction|].
  intros [->|Hin]; rewrite placed_cons.
  - simpl. pose proof (placed_le_length sq). lia.
  - specialize (IH Hin). destruct (truthy c); lia.
Qed.

Lemma nth_error_map_index {A B : Type} (f : A -> nat -> B) (l : list A) (i k : nat) :
  nth_error (map_index f l i) k =
  option_map (fun x => f x (i + k)) (nth_error l k).
Proof.
  revert i k. induction l as [|x l IH]; intros i [|k]; simpl; try reflexivity.
  - now rewrite Nat.add_0_r.
  - rewrite IH. now replace (S i + k) with (i + S k) by lia.
Qed.

Lemma map_index_length {A B : Type} (f : A -> nat -> B) (l : list A) (i : nat) :
  List.length (map_index f l i) = List.length l.
Proof. revert i. induction l as [|x l IH]; intros i; simpl; auto. Qed.

Lemma available_complete (b : squares) (m : nat) :
  js_get b m = Null -> In m (available b).
Proof. intros H. apply (map_index_complete b 0 m H). Qed.

Lemma available_none (b : squares) : ~ In Null b -> available b = [].
Proof.
  intros Hno. destruct (available b) as [|m l] eqn:E; [reflexivity|].
  exfalso. apply Hno.
  assert (Hm : js_get b m = Null) by (apply available_empty; rewrite E; now left).
  rewrite <- Hm. apply nth_In. now apply js_get_Null_lt.
Qed.

(** X4 (available).  The list [makeAIMove] chooses from holds exactly
    the indices of the [null] cells of the board, each once, all inside
    the board. *)
Theorem available_exactly_empty_cells (b : squares) :
  (forall m, In m (available b) <-> js_get b m = Null)
  /\ NoDup (available b)
  /\ (forall m, In m (available b) -> m < List.length b)
  /\ (available b = [] <-> ~ In Null b).
Proof.
  assert (Hiff : forall m, In m (available b) <-> js_get b m = Null).
  { intros m. split; [apply available_empty|apply available_complete]. }
  split; [exact Hiff|]. split; [apply map_index_NoDup|]. split.
  - intros m Hm. apply js_get_Null_lt. now apply Hiff.
  - split.
    + intros He Hin. apply forallb_not_null_false, available_nonempty in Hin.
      contradiction.
    + apply available_none.
Qed.

(** X4 on a board with two empty cells. *)
Lemma available_exactly_empty_cells_witness :
  In 2 (available [Mark PLAYER_X; Mark PLAYER_O; Null; Null])
  /\ 3 < List.length [Mark PLAYER_X; Mark PLAYER_O; Null; Null].
Proof.
  destruct (available_exactly_empty_cells
              [Mark PLAYER_X; Mark PLAYER_O; Null; Null])
    as (Hiff & _ & Hlt & _).
  split.
  - apply Hiff. reflexivity.
  - apply Hlt. apply Hiff. reflexivity.
Defined.

(** X5 (the computer's choice).  The double product
    [Math.random() * available.length] is rounded before [Math.floor]
    is taken; even so, for every value of [Math.random()] in [[0, 1)]
    and a non-empty list the index is inside the list, so the chosen
    entry exists and belongs to the list.  And every entry of a list of
    at most 2^26 entries is chosen for some double in that range. *)
Theorem pick_move_covers (avail : list nat) :
  (forall rnd, random_range rnd -> avail <> [] ->
     exists m, pick_move rnd avail = Some m /\ In m avail)
  /\ ((Z.of_nat (List.length avail) <= 2 ^ 26)%Z ->
      forall m, In m avail ->
        exists rnd, random_range rnd /\ (js_random rnd == rnd)%Q
                    /\ pick_move rnd avail = Some m).
Proof.
  split; [intros rnd; apply pick_move_in|].
  intros Hlen m Hin. apply In_nth_error in Hin. destruct Hin as [k Hk].
  assert (Hlt : k < List.length avail)
    by (apply nth_error_Some; congruence).
  destruct (js_index_reached (Z.of_nat k) (Z.of_nat (List.length avail))
              ltac:(lia) Hlen) as (rnd & H0 & H1 & Hrep & Hfl).
  exists rnd. split; [now split|]. split; [exact Hrep|].
  unfold pick_move. rewrite Hfl.
  destruct (Z.ltb_spec (Z.of_nat k) 0) as [H|_]; [lia|].
  now rewrite Nat2Z.id.
Qed.

(** X5 with three candidates: 0.7 chooses one of them, and the second
    is chosen by some double. *)
Lemma pick_move_covers_witness :
  (exists m, pick_move (7 # 10) [1; 4; 6] = Some m /\ In m [1; 4; 6])
  /\ (exists rnd, random_range rnd /\ (js_random rnd == rnd)%Q
                  /\ pick_move rnd [1; 4; 6] = Some 4).
Proof.
  split.
  - apply (proj1 (pick_move_covers [1; 4; 6])).
    + split; unfold Qle, Qlt; simpl; lia.
    + discriminate.
  - apply (proj2 (pick_move_covers [1; 4; 6])).
    + vm_compute. discriminate.
    + simpl. right. now left.
Defined.

(** X16 ([makeAIMove] alone).  On a board without a [null] cell
    [makeAIMove] changes nothing.  On a board with one, for
    [Math.random()] in its range, it writes ["O"] into a cell that was
    [null], leaves every other cell as it was, and the board keeps its
    length. *)
Theorem makeAIMove_only_fills_empty (rnd : Q) (s : state) :
  (~ In Null (board s) -> makeAIMove rnd s = s)
  /\ (In Null (board s) -> random_range rnd ->
        exists move,
          js_get (board s) move = Null
          /\ board (makeAIMove rnd s) = js_set (board s) move (Mark PLAYER_O)
          /\ js_get (board (makeAIMove rnd s)) move = Mark PLAYER_O
          /\ (forall i, i <> move ->
                js_get (board (makeAIMove rnd s)) i = js_get (board s) i)
          /\ List.length (board (makeAIMove rnd s)) = List.length (board s)).
Proof.
  split.
  - intros Hno. unfold makeAIMove. now rewrite (available_none _ Hno).
  - intros Hin Hr.
    apply forallb_not_null_false, available_nonempty in Hin.
    destruct (makeAIMove_places rnd s Hr Hin) as (m & _ & Hm & ->).
    exists m. rewrite_frame. simpl. split; [exact Hm|].
    split; [reflexivity|]. split; [apply js_get_js_set_same|]. split.
    + intros i Hi. apply js_get_js_set_other. congruence.
    + apply js_set_length. now apply js_get_Null_lt.
Qed.

(** X16 on the full board of a drawn game and on the empty board. *)
Lemma makeAIMove_only_fills_empty_witness :
  makeAIMove (1 # 3)
    (setBoard [Mark PLAYER_X; Mark PLAYER_O; Mark PLAYER_X;
               Mark PLAYER_X; Mark PLAYER_O; Mark PLAYER_O;
               Mark PLAYER_O; Mark PLAYER_X; Mark PLAYER_X] initialState)
  = setBoard [Mark PLAYER_X; Mark PLAYER_O; Mark PLAYER_X;
              Mark PLAYER_X; Mark PLAYER_O; Mark PLAYER_O;
              Mark PLAYER_O; Mark PLAYER_X; Mark PLAYER_X] initialState
  /\ exists move,
       js_get (board initialState) move = Null
       /\ board (makeAIMove (1 # 3) initialState)
          = js_set (board initialState) move (Mark PLAYER_O).
Proof.
  split.
  - apply (proj1 (makeAIMove_only_fills_empty (1 # 3) _)).
    simpl. intros H.
    repeat (destruct H as [H|H]; [discriminate|]). exact H.
  - destruct (proj2 (makeAIMove_only_fills_empty (1 # 3) initialState))
      as (m & Hm & Hb & _).
    + simpl. now left.
    + split; unfold Qle, Qlt; simpl; lia.
    + exists m. now split.
Defined.

(* ================================================================== *)
(** ** Further properties: how games run *)
(* ================================================================== *)

(** When the loop falls through, no line of the list is won. *)
Lemma calculateWinner_loop_Null (sq : squares) (ls : list (list nat)) :
  calculateWinner_loop ls sq = Null ->
  forall l q, In l ls -> ~ line_wins sq l q.
Proof.
  induction ls as [|l0 ls IH]; intros Hn l q Hin Hwl; [contradiction|].
  simpl in Hn. destruct Hin as [->|Hin].
  - destruct l as [|x [|y [|z tl]]]; try contradiction.
    assert (Ht : line_test sq x y z = true)
      by (apply line_test_true; now exists q).
    rewrite Ht in Hn. simpl in Hwl. destruct Hwl as [Hx _]. congruence.
  - destruct l0 as [|x [|y [|z tl]]]; try (now apply (IH Hn l q)).
    destruct (line_test sq x y z) eqn:Ht; [|now apply (IH Hn l q)].
    apply line_test_true in Ht. destruct Ht as (r & Hx & _). congruence.
Qed.

(** Writing the symbol of [p] on a board without a winner can only make
    [p] the winner. *)
Lemma calculateWinner_js_set (sq : squares) (i : nat) (p w : player) :
  calculateWinner sq = Null ->
  calculateWinner (js_set sq i (Mark p)) = Mark w -> w = p.
Proof.
  intros Hnone Hw.
  destruct (calculateWinner_line _ _ Hw)
    as (a & b & c & Hin & _ & _ & _ & _ & Ha & Hb & Hc).
  destruct (Nat.eq_dec i a) as [->|Hia];
    [rewrite js_get_js_set_same in Ha; congruence|].
  destruct (Nat.eq_dec i b) as [->|Hib];
    [rewrite js_get_js_set_same in Hb; congruence|].
  destruct (Nat.eq_dec i c) as [->|Hic];
    [rewrite js_get_js_set_same in Hc; congruence|].
  rewrite js_get_js_set_other in Ha, Hb, Hc by assumption.
  exfalso. apply (calculateWinner_loop_Null sq lines Hnone [a; b; c] w Hin).
  simpl. tauto.
Qed.

Lemma outcome_inv_resolution (s : state) (nb : squares) (x : bool) :
  gameStarted s = true -> gameOver s = false ->
  outcome_inv (handleBoardUpdate s nb x (setBoard nb s)).
Proof.
  intros Hst Hg. unfold outcome_inv.
  destruct (calculateWinner_cases nb) as [Hw|[w Hw]].
  - destruct (forallb not_null nb) eqn:F.
    + rewrite handleBoardUpdate_draw by assumption.
      apply forallb_not_null_true in F. simpl.
      split; [discriminate|]. split.
      * intros _. split; [exact Hst|]. right. now repeat split.
      * intros _. split; [exact Hst|discriminate].
    + rewrite handleBoardUpdate_continue by assumption.
      apply forallb_not_null_false in F. simpl.
      split; [now intros _|]. split; [congruence|].
      intros ->. split; [exact Hst|reflexivity].
  - rewrite (handleBoardUpdate_win _ _ _ _ w) by assumption. simpl.
    split; [discriminate|]. split.
    + intros _. split; [exact Hst|]. left. exists w. now split.
    + intros _. split; [exact Hst|discriminate].
Qed.

Lemma outcome_inv_fresh (s : state) :
  board s = getInitialBoard -> gameOver s = false -> xIsNext s = true ->
  outcome_inv s.
Proof.
  intros Hb Hg Hx. unfold outcome_inv. rewrite Hb, Hg, Hx.
  split; [|split; discriminate].
  intros _. split; [reflexivity|]. simpl. now left.
Qed.

Lemma outcome_inv_step (s : state) (e : event) :
  outcome_inv s -> outcome_inv (step s e).
Proof.
  intros Hinv. destruct e as [m| |idx|rnd].
  - now apply outcome_inv_fresh.
  - now apply outcome_inv_fresh.
  - destruct (move_outcome s (EClick idx) I) as [->|(Hst & Hg & nb & ->)];
      [exact Hinv|now apply outcome_inv_resolution].
  - destruct (move_outcome s (ETimer rnd) I) as [->|(Hst & Hg & nb & ->)];
      [exact Hinv|now apply outcome_inv_resolution].
Qed.

Lemma reachable_outcome_inv (s : state) : reachable s -> outcome_inv s.
Proof.
  induction 1 as [|s e Hs IH Hok];
    [now apply outcome_inv_fresh|now apply outcome_inv_step].
Qed.

Lemma In_Null_dec (b : squares) : {In Null b} + {~ In Null b}.
Proof.
  destruct (forallb not_null b) eqn:F.
  - right. now apply forallb_not_null_true.
  - left. now apply forallb_not_null_false.
Qed.

(** X7 (when a game is over).  In every state the component can be in,
    [gameOver] is set exactly when the detector finds a winner on the
    board or no cell of the board is [null]; a finished game has been
    started. *)
Theorem gameOver_iff_decided (s : state) :
  reachable s ->
  (gameOver s = true <->
     (exists w, calculateWinner (board s) = Mark w) \/ ~ In Null (board s))
  /\ (gameOver s = true -> gameStarted s = true).
Proof.
  intros Hr. destruct (reachable_outcome_inv s Hr) as (H1 & H2 & _).
  split; [|intros Hg; now apply H2].
  split.
  - intros Hg. destruct (H2 Hg) as (_ & [(w & Hw & _)|(_ & Hf & _)]);
      [left; now exists w|now right].
  - intros Hd. destruct (gameOver s) eqn:Hg; [reflexivity|].
    destruct (H1 eq_refl) as (Hn & Hin).
    destruct Hd as [[w Hw]|Hf]; [congruence|contradiction].
Qed.

(** X7 at the end of the top-row game. *)
Lemma gameOver_iff_decided_witness :
  gameOver (run initialState top_row_game) = true <->
  (exists w, calculateWinner (board (run initialState top_row_game)) = Mark w)
  \/ ~ In Null (board (run initialState top_row_game)).
Proof.
  apply (proj1 (gameOver_iff_decided (run initialState top_row_game)
                  (reachable_run initialState top_row_game reachable_init
                     ltac:(repeat constructor)))).
Defined.

(** X8 (the status line).  In every state the component can be in: a
    won game shows the win message of its mode for the winner on the
    board, a drawn game shows the draw message, and while a game goes
    on with [O] to move the line reads "O's turn" or, in single-player
    mode, "Computer is thinking...". *)
Theorem status_names_outcome (s : state) :
  reachable s ->
  (forall w, gameStatus s = WON w -> status s = win_status (mode s) w)
  /\ (gameStatus s = DRAWN -> status s = "It's a draw!")
  /\ (gameStatus s = IN_PROGRESS -> xIsNext s = false ->
        status s = if String.eqb (mode s) MODES.SINGLE_PLAYER
                   then "Computer is thinking..." else "O's turn").
Proof.
  intros Hr. destruct (reachable_outcome_inv s Hr) as (_ & H2 & H3).
  unfold gameStatus.
  destruct (gameStarted s); simpl; [|repeat split; discriminate].
  destruct (gameOver s); simpl.
  - destruct (H2 eq_refl) as (_ & [(w & Hw & Hs)|(Hn & _ & Hs)]).
    + rewrite Hw. split; [|split; discriminate].
      intros w' E. injection E as <-. exact Hs.
    + rewrite Hn. split; [discriminate|]. split; [now intros _|discriminate].
  - split; [discriminate|]. split; [discriminate|].
    intros _ Hx. destruct (H3 Hx) as (_ & Hs). rewrite (Hs eq_refl).
    unfold continue_status.
    now destruct (String.eqb (mode s) MODES.SINGLE_PLAYER).
Qed.

(** X8 at the end of the top-row game and after the human's first move
    against the computer. *)
Lemma status_names_outcome_witness :
  status (run initialState top_row_game)
  = win_status (mode (run initialState top_row_game)) PLAYER_X
  /\ status (run initialState single_player_opening)
     = "Computer is thinking...".
Proof.
  split.
  - apply (proj1 (status_names_outcome (run initialState top_row_game)
                    (reachable_run initialState top_row_game reachable_init
                       ltac:(repeat constructor)))).
    reflexivity.
  - apply (proj2 (proj2 (status_names_outcome
                    (run initialState single_player_opening)
                    (reachable_run initialState single_player_opening
                       reachable_init ltac:(repeat constructor))))).
    + reflexivity.
    + reflexivity.
Defined.

Lemma pick_move_In (rnd : Q) (avail : list nat) (m : nat) :
  pick_move rnd avail = Some m -> In m avail.
Proof.
  unfold pick_move.
  destruct (Qfloor (js_mul (js_random rnd)
                      (inject_Z (Z.of_nat (List.length avail)))) <? 0)%Z;
    [discriminate|].
  apply nth_error_In.
Qed.

(** What a move event does to the board: nothing, or the resolution
    step on the board with the mover's symbol in a cell that held none;
    the third case needs a value of [Math.random()] outside its range. *)
Lemma move_placement (s : state) (e : event) :
  is_move e ->
  step s e = s
  \/ (gameStarted s = true /\ gameOver s = false
      /\ ((exists i, truthy (js_get (board s) i) = false
             /\ step s e =
                handleBoardUpdate s (js_set (board s) i (Mark (turn s)))
                  (negb (xIsNext s))
                  (setBoard (js_set (board s) i (Mark (turn s))) s))
          \/ (~ event_ok e
              /\ step s e =
                 handleBoardUpdate s (board s) (negb (xIsNext s))
                   (setBoard (board s) s)))).
Proof.
  destruct e as [m| |idx|rnd]; simpl; try contradiction; intros _.
  - destruct (click_rejected_or_accepted idx s) as [H|H].
    + left. now apply handleSquareClick_rejected.
    + right. rewrite (handleSquareClick_accepted idx s H).
      destruct H as (Hst & Hg & Ht & _).
      split; [exact Hst|]. split; [exact Hg|]. left. exists idx. now split.
  - destruct (ai_scheduled s) eqn:Hs;
      [|left; now apply moveTimeout_unscheduled].
    unfold moveTimeout. rewrite Hs.
    apply ai_scheduled_true in Hs. destruct Hs as (_ & Hst & Hg & Hx).
    unfold makeAIMove, turn. rewrite Hx. simpl.
    destruct (Nat.eqb_spec (List.length (available (board s))) 0) as [H0|Hn];
      [now left|].
    right. split; [exact Hst|]. split; [exact Hg|].
    destruct (pick_move rnd (available (board s))) as [m|] eqn:Hp.
    + left. exists m. split; [|reflexivity].
      apply pick_move_In, available_empty in Hp. now rewrite Hp.
    + right. split; [|reflexivity].
      intros Hr. destruct (pick_move_in rnd (available (board s)) Hr)
        as (m & Hm & _); [|congruence].
      intros E. rewrite E in Hn. now apply Hn.
Qed.

Lemma gameStatus_WON (s : state) (w : player) :
  gameStatus s = WON w ->
  gameOver s = true /\ calculateWinner (board s) = Mark w.
Proof.
  unfold gameStatus. destruct (gameStarted s); simpl; [|discriminate].
  destruct (gameOver s); simpl; [|discriminate].
  destruct (calculateWinner (board s)); try discriminate.
  intros E. injection E as ->. now split.
Qed.

(** X12 (who wins).  In a game the component can be in, the move that
    wins is won by the symbol that was to move: a click can only make
    the clicking side the winner, the computer's move only ["O"]. *)
Theorem winner_is_the_mover (s : state) (e : event) (w : player) :
  reachable s -> is_move e -> gameOver s = false ->
  gameStatus (step s e) = WON w ->
  w = turn s.
Proof.
  intros Hr He Hg Hw.
  destruct (reachable_outcome_inv s Hr) as (H1 & _).
  destruct (H1 Hg) as (Hnone & _).
  apply gameStatus_WON in Hw. destruct Hw as (Hg' & Hcw).
  destruct (move_placement s e He)
    as [E|(_ & _ & [(i & Hi & E)|(_ & E)])]; rewrite E in Hg', Hcw.
  - congruence.
  - revert Hcw. rewrite_frame. simpl.
    now apply calculateWinner_js_set.
  - revert Hcw. rewrite_frame. simpl. congruence.
Qed.

(** X12 at the winning click of the top-row game. *)
Lemma winner_is_the_mover_witness :
  PLAYER_X = turn (run initialState top_row_opening).
Proof.
  apply (winner_is_the_mover (run initialState top_row_opening) (EClick 2)
           PLAYER_X
           (reachable_run initialState top_row_opening reachable_init
              ltac:(repeat constructor))
           I eq_refl eq_refl).
Defined.

(** X10 (symbols stay).  A move never removes or replaces a symbol: a
    cell that holds a symbol holds the same symbol after any click and
    any firing of the move timer.  A move that changes the state, for
    [Math.random()] in its range, adds exactly one symbol to the
    board. *)
Theorem moves_keep_symbols (s : state) (e : event) :
  is_move e ->
  (forall i p, js_get (board s) i = Mark p ->
               js_get (board (step s e)) i = Mark p)
  /\ (event_ok e -> step s e <> s ->
        placed (board (step s e)) = placed (board s) + 1).
Proof.
  intros He.
  destruct (move_placement s e He)
    as [E|(_ & _ & [(j & Hj & E)|(Hno & E)])]; rewrite E.
  - split; [auto|congruence].
  - rewrite_frame. simpl. split.
    + intros i p Hi. rewrite js_get_js_set_other; [exact Hi|].
      intros ->. rewrite Hi in Hj. discriminate.
    + intros _ _. now apply placed_js_set.
  - rewrite_frame. simpl. split; [auto|]. intros Hok. contradiction.
Qed.

(** X10 at the second click of a two-player game. *)
Lemma moves_keep_symbols_witness :
  js_get (board (step (run initialState [EStart MODES.TWO_PLAYER; EClick 4])
                   (EClick 0))) 4 = Mark PLAYER_X
  /\ placed (board (step (run initialState [EStart MODES.TWO_PLAYER; EClick 4])
                      (EClick 0))) = 2.
Proof.
  destruct (moves_keep_symbols
              (run initialState [EStart MODES.TWO_PLAYER; EClick 4])
              (EClick 0) I) as (Hk & Hp).
  split.
  - apply Hk. reflexivity.
  - rewrite Hp; [reflexivity|exact I|].
    intros H. apply (f_equal xIsNext) in H. vm_compute in H. discriminate.
Defined.

(** X9 (taking turns against the computer).  In single-player mode an
    accepted click after which the game goes on arms the move timer and
    makes every further click a no-op until the timer fires.  In every
    state the component can be in, a timer that is armed puts a symbol
    on the board when it fires (for [Math.random()] in its range), and
    after it has fired no timer is armed: the computer moves once. *)
Theorem single_player_alternates :
  (forall idx s,
     mode s = MODES.SINGLE_PLAYER -> click_accepted idx s ->
     gameOver (handleSquareClick idx s) = false ->
     ai_scheduled (handleSquareClick idx s) = true
     /\ forall idx',
          handleSquareClick idx' (handleSquareClick idx s)
          = handleSquareClick idx s)
  /\ (forall rnd s,
        reachable s -> ai_scheduled s = true -> random_range rnd ->
        placed (board (moveTimeout rnd s)) = placed (board s) + 1)
  /\ (forall rnd s, reachable s -> ai_scheduled (moveTimeout rnd s) = false).
Proof.
  split; [|split].
  - intros idx s Hm Hacc Hg'.
    assert (Hx : xIsNext s = true) by (destruct Hacc as (_ & _ & _ & H); auto).
    assert (Hres : resolution s (js_set (board s) idx (Mark (turn s)))
                     (handleSquareClick idx s)).
    { rewrite handleSquareClick_accepted by exact Hacc.
      destruct Hacc as (Hst & Hg & _).
      now apply handleBoardUpdate_resolution. }
    destruct (resolution_turn _ _ _ Hres) as (Hflip & _).
    destruct Hres as (_ & Hmode & Hst' & _).
    specialize (Hflip Hg'). rewrite Hx in Hflip. simpl in Hflip.
    split.
    + apply ai_scheduled_true. rewrite Hmode. now repeat split.
    + intros idx'. apply handleSquareClick_rejected.
      right. right. right. rewrite Hmode. now split.
  - intros rnd s Hr Hs Hrnd.
    destruct (reachable_outcome_inv s Hr) as (H1 & _).
    pose proof Hs as Hs'. apply ai_scheduled_true in Hs'.
    destruct Hs' as (_ & _ & Hg & _). destruct (H1 Hg) as (_ & Hin).
    destruct (moveTimeout_scheduled rnd s Hrnd Hs Hin) as (m & Hm & ->).
    rewrite_frame. simpl. apply placed_js_set. now rewrite Hm.
  - intros rnd s Hr.
    destruct (ai_scheduled s) eqn:Hs;
      [|now rewrite moveTimeout_unscheduled].
    destruct (reachable_outcome_inv s Hr) as (H1 & _).
    pose proof Hs as Hs'. apply ai_scheduled_true in Hs'.
    destruct Hs' as (_ & Hst & Hg & Hx). destruct (H1 Hg) as (_ & Hin).
    apply forallb_not_null_false, available_nonempty in Hin.
    unfold moveTimeout, makeAIMove. rewrite Hs.
    destruct (Nat.eqb_spec (List.length (available (board s))) 0) as [H0|_].
    { destruct (available (board s)); [congruence|discriminate]. }
    match goal with
    | |- ai_scheduled (handleBoardUpdate s ?nb true _) = false =>
        pose proof (handleBoardUpdate_resolution s nb true Hst Hg) as Hres
    end.
    rewrite Hx in Hres. specialize (Hres eq_refl).
    destruct (resolution_turn _ _ _ Hres) as (Hflip & _).
    unfold ai_scheduled.
    match goal with
    | |- context [gameOver ?t] => destruct (gameOver t) eqn:Hg'
    end.
    + now rewrite !andb_false_r.
    + rewrite (Hflip eq_refl), Hx. simpl. now rewrite !andb_false_r.
Qed.

(** X9 at the start of a single-player game. *)
Lemma single_player_alternates_witness :
  ai_scheduled (handleSquareClick 0 (startGame MODES.SINGLE_PLAYER initialState))
  = true
  /\ placed (board (moveTimeout (1 # 2)
                      (run initialState single_player_opening))) = 2
  /\ ai_scheduled (moveTimeout (1 # 2) (run initialState single_player_opening))
     = false.
Proof.
  split; [|split].
  - apply (proj1 single_player_alternates 0
             (startGame MODES.SINGLE_PLAYER initialState) eq_refl
             ltac:(unfold click_accepted; simpl; repeat split; reflexivity)
             eq_refl).
  - rewrite (proj1 (proj2 single_player_alternates) (1 # 2)
               (run initialState single_player_opening)
               (reachable_run initialState single_player_opening
                  reachable_init ltac:(repeat constructor))
               eq_refl
               ltac:(split; unfold Qle, Qlt; simpl; lia)).
    reflexivity.
  - apply (proj2 (proj2 single_player_alternates) (1 # 2)
             (run initialState single_player_opening)
             (reachable_run initialState single_player_opening
                reachable_init ltac:(repeat constructor))).
Defined.

Lemma step_score_le (s : state) (e : event) :
  Score.X (score s) <= Score.X (score (step s e))
  /\ Score.O (score s) <= Score.O (score (step s e))
  /\ Score.Draw (score s) <= Score.Draw (score (step s e)).
Proof.
  destruct e as [m| |idx|rnd]; try (simpl; lia).
  - destruct (move_score s (EClick idx) I)
      as [->|[(_ & _ & Hc & [Hd|[w Hw]] & _)|(_ & _ & ->)]]; try lia.
    + rewrite Hd in Hc. cbn [score_credit] in Hc. lia.
    + rewrite Hw in Hc. destruct w; cbn [score_credit] in Hc; lia.
  - destruct (move_score s (ETimer rnd) I)
      as [->|[(_ & _ & Hc & [Hd|[w Hw]] & _)|(_ & _ & ->)]]; try lia.
    + rewrite Hd in Hc. cbn [score_credit] in Hc. lia.
    + rewrite Hw in Hc. destruct w; cbn [score_credit] in Hc; lia.
Qed.

(** X11 (the score only grows).  Over any sequence of events, mode
    changes and restarts included, none of the three counters ever
    decreases, and [startGame] and [restartGame] leave them as they
    are: nothing resets the score. *)
Theorem score_never_decreases (s : state) (es : list event) :
  Score.X (score s) <= Score.X (score (run s es))
  /\ Score.O (score s) <= Score.O (score (run s es))
  /\ Score.Draw (score s) <= Score.Draw (score (run s es))
  /\ (forall m, score (startGame m (run s es)) = score (run s es))
  /\ score (restartGame (run s es)) = score (run s es).
Proof.
  revert s. induction es as [|e es IH]; intros s.
  - simpl. repeat split; lia.
  - simpl. destruct (IH (step s e)) as (Hx & Ho & Hd & Hrest).
    destruct (step_score_le s e) as (Hx' & Ho' & Hd').
    repeat split; try lia; apply Hrest.
Qed.

Lemma step_gameStarted (s : state) (e : event) :
  gameStarted s = true -> gameStarted (step s e) = true.
Proof.
  intros H. destruct e as [m| |idx|rnd]; simpl.
  - reflexivity.
  - exact H.
  - now rewrite handleSquareClick_gameStarted.
  - now rewrite moveTimeout_gameStarted.
Qed.

Lemma step_mode (s : state) (e : event) :
  (forall m, e <> EStart m) -> mode (step s e) = mode s.
Proof.
  intros Hne. destruct e as [m| |idx|rnd].
  - exfalso. now apply (Hne m).
  - reflexivity.
  - destruct (move_outcome s (EClick idx) I) as [->|(_ & _ & nb & ->)];
      [reflexivity|now rewrite_frame].
  - destruct (move_outcome s (ETimer rnd) I) as [->|(_ & _ & nb & ->)];
      [reflexivity|now rewrite_frame].
Qed.

(** X13 (started stays started, the mode stays put).  Once a game has
    been started, no sequence of events makes [gameStarted] false
    again; and a sequence without a press of a mode button leaves the
    mode as it is. *)
Theorem started_and_mode_persist (s : state) (es : list event) :
  (gameStarted s = true -> gameStarted (run s es) = true)
  /\ ((forall e, In e es -> forall m, e <> EStart m) ->
      mode (run s es) = mode s).
Proof.
  revert s. induction es as [|e es IH]; intros s; [now split|].
  simpl. destruct (IH (step s e)) as (H1 & H2). split.
  - intros H. apply H1. now apply step_gameStarted.
  - intros Hne. rewrite H2.
    + apply step_mode. apply Hne. now left.
    + intros e' Hin. apply Hne. now right.
Qed.

(** X13 over a restart and two clicks of a single-player game. *)
Lemma started_and_mode_persist_witness :
  gameStarted (run (startGame MODES.SINGLE_PLAYER initialState)
                 [EClick 3; ERestart; EClick 3]) = true
  /\ mode (run (startGame MODES.SINGLE_PLAYER initialState)
             [EClick 3; ERestart; EClick 3]) = MODES.SINGLE_PLAYER.
Proof.
  destruct (started_and_mode_persist
              (startGame MODES.SINGLE_PLAYER initialState)
              [EClick 3; ERestart; EClick 3]) as (H1 & H2).
  split.
  - apply H1. reflexivity.
  - rewrite H2; [reflexivity|].
    intros e [<-|[<-|[<-|[]]]] m; discriminate.
Defined.

(** X6 (whose turn it is).  In every state the component can be in, the
    board holds as many ["X"] as ["O"] or one more; while the game goes
    on, [xIsNext] is [true] exactly when the counts are equal. *)
Theorem turn_matches_counts (s : state) :
  reachable s ->
  balanced (board s)
  /\ (gameOver s = false ->
        (xIsNext s = true <->
           count_player PLAYER_X (board s) = count_player PLAYER_O (board s))
        /\ (xIsNext s = false <->
              count_player PLAYER_X (board s)
              = count_player PLAYER_O (board s) + 1)).
Proof.
  intros Hr. split; [now apply reachable_balanced|].
  intros Hg. pose proof (reachable_turn_inv s Hr) as H.
  unfold turn_inv in H. rewrite Hg in H. destruct H as [H _].
  destruct (xIsNext s); split; split; intros; try congruence; lia.
Qed.

(** X6 after the first four moves of the top-row game. *)
Lemma turn_matches_counts_witness :
  balanced (board (run initialState top_row_opening))
  /\ (xIsNext (run initialState top_row_opening) = true <->
        count_player PLAYER_X (board (run initialState top_row_opening))
        = count_player PLAYER_O (board (run initialState top_row_opening))).
Proof.
  destruct (turn_matches_counts (run initialState top_row_opening)
              (reachable_run initialState top_row_opening reachable_init
                 ltac:(repeat constructor))) as (Hb & Hc).
  split; [exact Hb|]. exact (proj1 (Hc eq_refl)).
Defined.

(* ================================================================== *)
(** ** Further properties: the page *)
(* ================================================================== *)

Lemma ui_event_ok (e : event) : ui_event e -> event_ok e.
Proof. destruct e; simpl; auto. Qed.

Lemma ui_reachable (es : list event) :
  Forall ui_event es -> reachable (run initialState es).
Proof.
  intros H. apply reachable_run; [apply reachable_init|].
  eapply Forall_impl; [|exact H]. apply ui_event_ok.
Qed.

Lemma js_set_In (sq : squares) (i : nat) (v c : cell) :
  i < List.length sq -> In c (js_set sq i v) -> c = v \/ In c sq.
Proof.
  revert sq. induction i as [|i IH]; intros [|x sq] Hi Hin; simpl in *; try lia.
  - destruct Hin as [<-|Hin]; auto.
  - destruct Hin as [<-|Hin]; auto.
    destruct (IH sq ltac:(lia) Hin); auto.
Qed.

Lemma getInitialBoard_no_Undefined : ~ In Undefined getInitialBoard.
Proof.
  simpl. intros H. repeat (destruct H as [H|H]; [discriminate|]). exact H.
Qed.

(** With the events of the page the board keeps nine cells, none of
    them [undefined], and the mode is one of the two modes. *)
Lemma ui_step_shape (s : state) (e : event) :
  ui_event e ->
  List.length (board s) = 9 /\ ~ In Undefined (board s)
  /\ (mode s = MODES.TWO_PLAYER \/ mode s = MODES.SINGLE_PLAYER) ->
  List.length (board (step s e)) = 9 /\ ~ In Undefined (board (step s e))
  /\ (mode (step s e) = MODES.TWO_PLAYER
      \/ mode (step s e) = MODES.SINGLE_PLAYER).
Proof.
  intros He (Hlen & Hno & Hmode).
  destruct e as [m| |idx|rnd]; simpl in *.
  - split; [reflexivity|]. split; [apply getInitialBoard_no_Undefined|exact He].
  - split; [reflexivity|].
    split; [apply getInitialBoard_no_Undefined|exact Hmode].
  - destruct (click_rejected_or_accepted idx s) as [H|H].
    + rewrite handleSquareClick_rejected by exact H. tauto.
    + rewrite handleSquareClick_accepted by exact H. rewrite_frame. simpl.
      split; [rewrite js_set_length; lia|]. split; [|exact Hmode].
      intros Hin. apply js_set_In in Hin; [|lia].
      destruct Hin as [E|Hin]; [discriminate|contradiction].
  - unfold moveTimeout, makeAIMove.
    destruct (ai_scheduled s); [|tauto].
    destruct (Nat.eqb (List.length (available (board s))) 0); [tauto|].
    rewrite_frame. simpl.
    destruct (pick_move rnd (available (board s))) as [m|] eqn:Hp; [|tauto].
    apply pick_move_In, available_empty, js_get_Null_lt in Hp.
    split; [rewrite js_set_length; lia|]. split; [|exact Hmode].
    intros Hin. apply js_set_In in Hin; [|lia].
    destruct Hin as [E|Hin]; [discriminate|contradiction].
Qed.

Lemma ui_run_shape (s : state) (es : list event) :
  Forall ui_event es ->
  List.length (board s) = 9 /\ ~ In Undefined (board s)
  /\ (mode s = MODES.TWO_PLAYER \/ mode s = MODES.SINGLE_PLAYER) ->
  List.length (board (run s es)) = 9 /\ ~ In Undefined (board (run s es))
  /\ (mode (run s es) = MODES.TWO_PLAYER
      \/ mode (run s es) = MODES.SINGLE_PLAYER).
Proof.
  revert s. induction es as [|e es IH]; intros s Hes Hs; [exact Hs|].
  inversion Hes; subst. simpl. apply IH; [assumption|].
  now apply ui_step_shape.
Qed.

Lemma initialState_shape :
  List.length (board initialState) = 9 /\ ~ In Undefined (board initialState)
  /\ (mode initialState = MODES.TWO_PLAYER
      \/ mode initialState = MODES.SINGLE_PLAYER).
Proof.
  split; [reflexivity|]. split; [apply getInitialBoard_no_Undefined|now left].
Qed.

(** X3 (the board keeps its shape).  Whatever the buttons of the page
    and the move timer do, the board has nine cells, each [null] or a
    player symbol, and [renderBoard] shows nine buttons. *)
Theorem board_keeps_nine_cells (es : list event) :
  Forall ui_event es ->
  List.length (board (run initialState es)) = 9
  /\ (forall i, i < 9 ->
        js_get (board (run initialState es)) i = Null
        \/ exists p, js_get (board (run initialState es)) i = Mark p)
  /\ List.length (renderBoard (run initialState es)) = 9.
Proof.
  intros Hes.
  destruct (ui_run_shape initialState es Hes initialState_shape)
    as (Hlen & Hno & _).
  split; [exact Hlen|]. split.
  - intros i Hi.
    destruct (js_get (board (run initialState es)) i) as [| |p] eqn:E;
      [now left| |right; now exists p].
    exfalso. apply Hno. rewrite <- E. apply nth_In. lia.
  - unfold renderBoard. now rewrite map_index_length.
Qed.

(** X3 after a start in single-player mode, a click and the computer's
    answer. *)
Lemma board_keeps_nine_cells_witness :
  List.length
    (board (run initialState
              [EStart MODES.SINGLE_PLAYER; EClick 8; ETimer (1 # 4)])) = 9.
Proof.
  apply (board_keeps_nine_cells
           [EStart MODES.SINGLE_PLAYER; EClick 8; ETimer (1 # 4)]).
  repeat apply Forall_cons; try apply Forall_nil; simpl.
  - now right.
  - lia.
  - split; unfold Qle, Qlt; simpl; lia.
Defined.

(** X14 (a game is short).  With the events of the page a board never
    holds more than nine symbols, a game that goes on holds fewer than
    nine, and a board with nine symbols belongs to a finished game. *)
Theorem at_most_nine_symbols (es : list event) :
  Forall ui_event es ->
  placed (board (run initialState es)) <= 9
  /\ (gameOver (run initialState es) = false ->
        placed (board (run initialState es)) < 9)
  /\ (placed (board (run initialState es)) = 9 ->
        gameOver (run initialState es) = true).
Proof.
  intros Hes.
  destruct (ui_run_shape initialState es Hes initialState_shape)
    as (Hlen & _ & _).
  destruct (reachable_outcome_inv _ (ui_reachable es Hes)) as (H1 & _).
  pose proof (placed_le_length (board (run initialState es))) as Hle.
  assert (Hlt : gameOver (run initialState es) = false ->
                placed (board (run initialState es)) < 9).
  { intros Hg. destruct (H1 Hg) as (_ & Hin).
    apply placed_lt_length in Hin. lia. }
  split; [lia|]. split; [exact Hlt|].
  intros Hp. destruct (gameOver (run initialState es)); [reflexivity|].
  specialize (Hlt eq_refl). lia.
Qed.

(** X14 on the two-player game that fills the board. *)
Lemma at_most_nine_symbols_witness :
  gameOver
    (run initialState
       [EStart MODES.TWO_PLAYER; EClick 0; EClick 1; EClick 2; EClick 4;
        EClick 3; EClick 5; EClick 7; EClick 6; EClick 8]) = true.
Proof.
  apply (proj2 (proj2 (at_most_nine_symbols
           [EStart MODES.TWO_PLAYER; EClick 0; EClick 1; EClick 2; EClick 4;
            EClick 3; EClick 5; EClick 7; EClick 6; EClick 8]
           ltac:(repeat apply Forall_cons; try apply Forall_nil;
                 simpl; try lia; now left)))).
  reflexivity.
Defined.

Lemma renderBoard_nth (s : state) (idx : nat) (b : square_button) :
  nth_error (renderBoard s) idx = Some b ->
  idx < List.length (board s)
  /\ b = render_square s (js_get (board s) idx) idx.
Proof.
  unfold renderBoard. rewrite nth_error_map_index. simpl.
  destruct (nth_error (board s) idx) as [val|] eqn:E; simpl; [|discriminate].
  intros H. injection H as <-.
  split; [apply nth_error_Some; congruence|].
  unfold js_get. now rewrite (nth_error_nth _ _ Undefined E).
Qed.

(** X1 (disabled cells).  The button [renderBoard] shows for cell [idx]
    carries the content of that cell.  A click on a button shown
    disabled changes nothing.  A click on a button shown enabled is
    accepted, except in single-player mode while the computer is to
    move, where the handler ignores it. *)
Theorem disabled_square_ignores_click (s : state) (idx : nat) (b : square_button) :
  nth_error (renderBoard s) idx = Some b ->
  sq_val b = js_get (board s) idx
  /\ (sq_disabled b = true -> handleSquareClick idx s = s)
  /\ (sq_disabled b = false ->
        (mode s = MODES.SINGLE_PLAYER -> xIsNext s = true) ->
        click_accepted idx s
        /\ js_get (board (handleSquareClick idx s)) idx = Mark (turn s))
  /\ (sq_disabled b = false ->
        mode s = MODES.SINGLE_PLAYER -> xIsNext s = false ->
        handleSquareClick idx s = s).
Proof.
  intros Hb. apply renderBoard_nth in Hb. destruct Hb as (_ & ->).
  cbn [render_square sq_val sq_disabled].
  split; [reflexivity|]. split; [|split].
  - intros Hd. apply handleSquareClick_rejected. unfold click_rejected.
    apply orb_true_iff in Hd. destruct Hd as [Hd|Hg]; [|auto].
    apply orb_true_iff in Hd. destruct Hd as [Ht|Hst]; [auto|].
    apply negb_true_iff in Hst. auto.
  - intros Hd Hm.
    apply orb_false_iff in Hd. destruct Hd as (Hd & Hg).
    apply orb_false_iff in Hd. destruct Hd as (Ht & Hst).
    apply negb_false_iff in Hst.
    assert (Hacc : click_accepted idx s).
    { unfold click_accepted. auto. }
    split; [exact Hacc|].
    rewrite handleSquareClick_accepted by exact Hacc.
    rewrite_frame. cbn [board setBoard]. apply js_get_js_set_same.
  - intros _ Hm Hx. apply handleSquareClick_rejected.
    right. right. right. now split.
Qed.

(** X1 on the first cell after the first four moves of the top-row
    game: it holds ["X"], its button is disabled and a click on it is
    ignored. *)
Lemma disabled_square_ignores_click_witness :
  handleSquareClick 0 (run initialState top_row_opening)
  = run initialState top_row_opening.
Proof.
  assert (Hb : nth_error (renderBoard (run initialState top_row_opening)) 0
               = Some (render_square (run initialState top_row_opening)
                         (Mark PLAYER_X) 0))
    by (vm_compute; reflexivity).
  apply (proj1 (proj2 (disabled_square_ignores_click _ _ _ Hb))).
  vm_compute. reflexivity.
Defined.

Lemma boardWinnerSquares_In (sq : squares) (idx : nat) :
  In idx (boardWinnerSquares sq) ->
  exists p, calculateWinner sq = Mark p /\ js_get sq idx = Mark p.
Proof.
  intros Hin. unfold boardWinnerSquares, calculateWinner in *.
  destruct (loops_agree sq lines) as [[_ H2]|(p & H1 & Hl & Hw)].
  - rewrite H2 in Hin. contradiction.
  - exists p. split; [exact H1|].
    destruct (lines_shape _ Hl) as (a & b & c & E & _).
    rewrite E in Hin, Hw. simpl in Hw, Hin.
    destruct Hw as (Ha & Hb & Hc).
    destruct Hin as [<-|[<-|[<-|[]]]]; assumption.
Qed.

(** X2 (the highlight).  In every state the component can be in, a cell
    button has the accent background exactly when the game is won and
    the cell lies on the line [boardWinnerSquares] returns, and then
    the cell holds the winner's symbol; every other button, and every
    button of a drawn or running game, has the white background. *)
Theorem highlight_marks_winning_line (s : state) (idx : nat) (b : square_button) :
  reachable s ->
  nth_error (renderBoard s) idx = Some b ->
  (sq_background b = COLORS.accent <->
     (exists w, gameStatus s = WON w)
     /\ In idx (boardWinnerSquares (board s)))
  /\ (sq_background b = COLORS.accent ->
        exists w, gameStatus s = WON w /\ sq_val b = Mark w)
  /\ (sq_background b = COLORS.accent \/ sq_background b = "#fff").
Proof.
  intros Hr Hb. apply renderBoard_nth in Hb. destruct Hb as (_ & ->).
  cbn [render_square sq_val sq_background].
  destruct (reachable_outcome_inv s Hr) as (_ & H2 & _).
  assert (Hhl : highlighted idx s = true ->
                exists w, gameStatus s = WON w
                          /\ js_get (board s) idx = Mark w
                          /\ In idx (boardWinnerSquares (board s))).
  { unfold highlighted. intros H. apply andb_true_iff in H.
    destruct H as (Hex & Hg). apply existsb_exists in Hex.
    destruct Hex as (j & Hj & E). apply Nat.eqb_eq in E. subst j.
    destruct (boardWinnerSquares_In _ _ Hj) as (p & Hp & Hc).
    destruct (H2 Hg) as (Hst & _).
    exists p. unfold gameStatus. rewrite Hst, Hg, Hp. simpl. now repeat split. }
  destruct (highlighted idx s) eqn:Hh.
  - destruct (Hhl eq_refl) as (w & Hw & Hc & Hin).
    split; [|split; [|now left]].
    + split; [intros _; split; [now exists w|exact Hin]|reflexivity].
    + intros _. now exists w.
  - split; [|split; [discriminate|now right]].
    split; [discriminate|].
    intros ((w & Hw) & Hin). exfalso.
    apply gameStatus_WON in Hw. destruct Hw as (Hg & _).
    unfold highlighted in Hh. rewrite Hg, andb_true_r in Hh.
    assert (existsb (Nat.eqb idx) (boardWinnerSquares (board s)) = true).
    { apply existsb_exists. exists idx. split; [exact Hin|apply Nat.eqb_refl]. }
    congruence.
Qed.

(** X2 on the second cell at the end of the top-row game. *)
Lemma highlight_marks_winning_line_witness :
  exists w,
    gameStatus (run initialState top_row_game) = WON w
    /\ sq_val (render_square (run initialState top_row_game)
                 (Mark PLAYER_X) 1) = Mark w.
Proof.
  assert (Hb : nth_error (renderBoard (run initialState top_row_game)) 1
               = Some (render_square (run initialState top_row_game)
                         (Mark PLAYER_X) 1))
    by (vm_compute; reflexivity).
  apply (proj1 (proj2 (highlight_marks_winning_line _ _ _
           (reachable_run initialState top_row_game reachable_init
              ltac:(repeat constructor)) Hb))).
  vm_compute. reflexivity.
Defined.

(** X15 (the control buttons).  With the events of the page: before the
    first start both mode buttons are enabled and Restart is disabled;
    once a game has been started Restart is enabled and exactly one
    mode button is disabled, the one of the current mode, so that a
    press of the enabled one changes the mode. *)
Theorem controls_follow_mode (es : list event) :
  Forall ui_event es ->
  (gameStarted (run initialState es) = false ->
     renderControls (run initialState es) = mkControls false false true)
  /\ (gameStarted (run initialState es) = true ->
        restart_disabled (renderControls (run initialState es)) = false
        /\ single_disabled (renderControls (run initialState es))
           = negb (two_disabled (renderControls (run initialState es)))
        /\ (single_disabled (renderControls (run initialState es)) = true <->
              mode (run initialState es) = MODES.SINGLE_PLAYER)
        /\ (two_disabled (renderControls (run initialState es)) = true <->
              mode (run initialState es) = MODES.TWO_PLAYER)).
Proof.
  intros Hes.
  destruct (ui_run_shape initialState es Hes initialState_shape)
    as (_ & _ & Hmode).
  unfold renderControls. simpl. split.
  - intros ->. reflexivity.
  - intros ->. simpl. split; [reflexivity|].
    rewrite !String.eqb_eq.
    destruct Hmode as [-> | ->]; simpl; repeat split; auto; discriminate.
Qed.

(** X15 during a single-player game. *)
Lemma controls_follow_mode_witness :
  restart_disabled (renderControls (run initialState single_player_opening))
  = false
  /\ single_disabled (renderControls (run initialState single_player_opening))
     = negb (two_disabled
               (renderControls (run initialState single_player_opening))).
Proof.
  destruct (proj2 (controls_follow_mode single_player_opening
              ltac:(repeat apply Forall_cons; try apply Forall_nil;
                    simpl; try lia; now right)) eq_refl)
    as (Hr & Hs & _).
  split; [exact Hr|exact Hs].
Defined.

(* ================================================================== *)
(** ** Further properties: the detector and repeated clicks *)
(* ================================================================== *)

(** X17 (a second click).  Clicking the same cell twice is the same as
    clicking it once, in every state: either the first click is ignored
    and so is the second, or the first click fills the cell and the
    second finds it occupied. *)
Theorem second_click_is_ignored (idx : nat) (s : state) :
  handleSquareClick idx (handleSquareClick idx s) = handleSquareClick idx s.
Proof.
  destruct (click_rejected_or_accepted idx s) as [H|H].
  - rewrite (handleSquareClick_rejected idx s H).
    exact (handleSquareClick_rejected idx s H).
  - apply handleSquareClick_rejected. right. right. left.
    rewrite handleSquareClick_accepted by exact H.
    rewrite_frame. cbn [board setBoard].
    now rewrite js_get_js_set_same.
Qed.

(** X18 (what the detector reads).  [calculateWinner] and
    [boardWinnerSquares] look at the cells 0 to 8 only: two arrays that
    agree there, whatever their lengths, get the same answers; an array
    with fewer than three entries has no winner. *)
Theorem detector_reads_nine_cells (sq sq' : squares) :
  ((forall i, i < 9 -> js_get sq i = js_get sq' i) ->
   calculateWinner sq = calculateWinner sq'
   /\ boardWinnerSquares sq = boardWinnerSquares sq')
  /\ (List.length sq < 3 ->
      calculateWinner sq = Null /\ boardWinnerSquares sq = []).
Proof.
  split.
  - intros H. unfold calculateWinner, boardWinnerSquares, lines.
    cbn [calculateWinner_loop boardWinnerSquares_loop]. unfold line_test.
    rewrite !H by lia. now split.
  - intros Hlen. apply loops_none. intros l q Hin Hw.
    destruct (lines_shape _ Hin) as (a & b & c & -> & Hab & Hbc & _).
    simpl in Hw. destruct Hw as (_ & _ & Hc).
    unfold js_get in Hc. rewrite nth_overflow in Hc by lia. discriminate.
Qed.

(** X18 on a nine-cell board and the same board with a tenth entry. *)
Lemma detector_reads_nine_cells_witness :
  calculateWinner
    [Mark PLAYER_O; Null; Mark PLAYER_X; Null; Mark PLAYER_X; Null;
     Mark PLAYER_X; Null; Mark PLAYER_O]
  = calculateWinner
      [Mark PLAYER_O; Null; Mark PLAYER_X; Null; Mark PLAYER_X; Null;
       Mark PLAYER_X; Null; Mark PLAYER_O; Mark PLAYER_O].
Proof.
  apply (proj1 (detector_reads_nine_cells _ _)).
  intros i Hi.
  do 9 (destruct i as [|i]; [reflexivity|]). lia.
Defined.

Lemma js_get_map_swap (sq : squares) (i : nat) :
  js_get (map swap_cell sq) i = swap_cell (js_get sq i).
Proof.
  unfold js_get. change Undefined with (swap_cell Undefined) at 1.
  apply map_nth.
Qed.

Lemma line_test_swap (sq : squares) (a b c : nat) :
  line_test (map swap_cell sq) a b c = line_test sq a b c.
Proof.
  unfold line_test. rewrite !js_get_map_swap.
  destruct (js_get sq a) as [| |[|]], (js_get sq b) as [| |[|]],
    (js_get sq c) as [| |[|]]; reflexivity.
Qed.

(** X19 (both symbols alike).  Exchanging ["X"] and ["O"] on a board
    exchanges the winner and leaves the winning line where it is. *)
Theorem detector_is_symmetric (sq : squares) :
  calculateWinner (map swap_cell sq) = swap_cell (calculateWinner sq)
  /\ boardWinnerSquares (map swap_cell sq) = boardWinnerSquares sq.
Proof.
  unfold calculateWinner, boardWinnerSquares.
  induction lines as [|l ls IH]; simpl; [now split|].
  destruct l as [|a [|b [|c tl]]]; try exact IH.
  rewrite line_test_swap.
  destruct (line_test sq a b c); [|exact IH].
  split; [apply js_get_map_swap|reflexivity].
Qed.

Lemma line_wins_js_set (sq : squares) (i : nat) (t p : player) (l : list nat) :
  line_wins (js_set sq i (Mark t)) l p -> p = t \/ line_wins sq l p.
Proof.
  destruct l as [|a [|b [|c tl]]]; simpl; try contradiction.
  intros (Ha & Hb & Hc).
  destruct (Nat.eq_dec i a) as [->|Hia];
    [rewrite js_get_js_set_same in Ha; left; congruence|].
  destruct (Nat.eq_dec i b) as [->|Hib];
    [rewrite js_get_js_set_same in Hb; left; congruence|].
  destruct (Nat.eq_dec i c) as [->|Hic];
    [rewrite js_get_js_set_same in Hc; left; congruence|].
  rewrite js_get_js_set_other in Ha, Hb, Hc by assumption.
  right. tauto.
Qed.

Lemma line_wins_winner (sq : squares) (l : list nat) (p : player) :
  In l lines -> line_wins sq l p -> exists w, calculateWinner sq = Mark w.
Proof.
  intros Hin Hw. destruct (calculateWinner_cases sq) as [Hn|H]; [|exact H].
  exfalso. exact (calculateWinner_loop_Null sq lines Hn l p Hin Hw).
Qed.

Lemma getInitialBoard_no_line (l : list nat) (p : player) :
  In l lines -> ~ line_wins getInitialBoard l p.
Proof.
  intros Hin Hw. destruct (line_wins_winner _ _ _ Hin Hw) as [w Hw'].
  discriminate.
Qed.

(** X20 (one winner).  On every board the component can show, a line of
    the table that holds three equal symbols holds the symbol
    [calculateWinner] returns, and the game is over: the two players
    never both have a complete line, and a complete line never goes
    undetected. *)
Theorem complete_line_is_the_winner (s : state) (l : list nat) (p : player) :
  reachable s -> In l lines -> line_wins (board s) l p ->
  calculateWinner (board s) = Mark p /\ gameOver s = true.
Proof.
  intros Hr Hin Hw.
  assert (Hcw : calculateWinner (board s) = Mark p).
  { revert l p Hin Hw. induction Hr as [|s e Hs IH Hok]; intros l p Hin Hw.
    - exfalso. exact (getInitialBoard_no_line l p Hin Hw).
    - destruct e as [m| |idx|rnd].
      + exfalso. exact (getInitialBoard_no_line l p Hin Hw).
      + exfalso. exact (getInitialBoard_no_line l p Hin Hw).
      + destruct (reachable_outcome_inv s Hs) as (H1 & _).
        destruct (move_placement s (EClick idx) I)
          as [E|(_ & Hg & [(i & Hi & E)|(_ & E)])];
          rewrite E in *; clear E.
        * now apply (IH l p).
        * revert Hw. rewrite_frame. cbn [board setBoard]. intros Hw.
          destruct (H1 Hg) as (Hnone & _).
          destruct (line_wins_winner _ _ _ Hin Hw) as [w Hw'].
          rewrite Hw'. f_equal.
          rewrite (calculateWinner_js_set _ _ _ _ Hnone Hw').
          destruct (line_wins_js_set _ _ _ _ _ Hw) as [->|Hold];
            [reflexivity|].
          exfalso.
          exact (calculateWinner_loop_Null _ lines Hnone l p Hin Hold).
        * revert Hw. rewrite_frame. cbn [board setBoard]. intros Hw.
          now apply (IH l p).
      + destruct (reachable_outcome_inv s Hs) as (H1 & _).
        destruct (move_placement s (ETimer rnd) I)
          as [E|(_ & Hg & [(i & Hi & E)|(_ & E)])];
          rewrite E in *; clear E.
        * now apply (IH l p).
        * revert Hw. rewrite_frame. cbn [board setBoard]. intros Hw.
          destruct (H1 Hg) as (Hnone & _).
          destruct (line_wins_winner _ _ _ Hin Hw) as [w Hw'].
          rewrite Hw'. f_equal.
          rewrite (calculateWinner_js_set _ _ _ _ Hnone Hw').
          destruct (line_wins_js_set _ _ _ _ _ Hw) as [->|Hold];
            [reflexivity|].
          exfalso.
          exact (calculateWinner_loop_Null _ lines Hnone l p Hin Hold).
        * revert Hw. rewrite_frame. cbn [board setBoard]. intros Hw.
          now apply (IH l p). }
  split; [exact Hcw|].
  destruct (reachable_outcome_inv s Hr) as (H1 & _).
  destruct (gameOver s); [reflexivity|].
  destruct (H1 eq_refl) as (Hn & _). congruence.
Qed.

(** X20 at the end of the top-row game. *)
Lemma complete_line_is_the_winner_witness :
  calculateWinner (board (run initialState top_row_game)) = Mark PLAYER_X
  /\ gameOver (run initialState top_row_game) = true.
Proof.
  apply (complete_line_is_the_winner (run initialState top_row_game)
           [0; 1; 2] PLAYER_X
           (reachable_run initialState top_row_game reachable_init
              ltac:(repeat constructor))).
  - simpl. now left.
  - vm_compute. repeat split; reflexivity.
Defined.
